(** * WinReg: the registry value codec, the RegValue variant and the RegKey handle

    A shallow embedding of [WinReg.hpp] and [WinReg.cpp].  The C++ code is a
    layer over the Win32 registry calls; the embedding keeps the wrappers as
    they are written and runs them against a small reference model of the
    calls they make ([RegQueryValueEx], [RegSetValueEx], [RegCloseKey],
    [ExpandEnvironmentStrings]).

    Conventions.
    - [DWORD], [wchar_t], [BYTE] and [size_t] values are integers in [Z]; the
      wrap-around of unsigned arithmetic is written out ([to_DWORD],
      [to_size_t]).
    - A pointer handed to the platform is modelled by the bytes that are
      addressable from it.
    - The embedding is of the release configuration: [GD_WINREG_ASSERT] is
      [_ASSERTE], which expands to nothing unless [_DEBUG] is defined, and
      [GD_WINREG_VERIFY] evaluates its expression and drops the result.
    - The result of a call is an [outcome]: a value, a C++ exception, or a
      [fault] when the call leaves the contract of the container or of the
      memory it touches (behaviour the language leaves undefined). *)

From Stdlib Require Import ZArith List Lia String Bool.
From stdpp Require Import base option list gmap.

Local Open Scope Z_scope.

(** ** Integers of the platform *)

(** Whether [_WIN64] is defined: it selects the width of [size_t] and the body
    of [SafeSizeToDwordCast]. *)
Inductive Build : Set := Build32 | Build64.

Definition DWORD_MAX : Z := 4294967295.

Definition SIZE_MAX (b : Build) : Z :=
  match b with
  | Build32 => 4294967295
  | Build64 => 18446744073709551615
  end.

Definition to_DWORD (n : Z) : Z := n mod (DWORD_MAX + 1).
Definition to_size_t (b : Build) (n : Z) : Z := n mod (SIZE_MAX b + 1).

Definition size_add (b : Build) (x y : Z) : Z := to_size_t b (x + y).
Definition size_mul (b : Build) (x y : Z) : Z := to_size_t b (x * y).

(** [sizeof(wchar_t)] and [sizeof(DWORD)] on Windows. *)
Definition sizeof_wchar_t : Z := 2.
Definition sizeof_DWORD : Z := 4.

Definition is_DWORD (n : Z) : Prop := 0 <= n <= DWORD_MAX.
Definition is_wchar (c : Z) : Prop := 0 <= c < 65536.

(** [std::wstring] as its sequence of code units, [std::vector<BYTE>] as its
    bytes. *)
Definition wstring : Type := list Z.
Definition zlen {A} (l : list A) : Z := Z.of_nat (length l).

(** ** Outcomes *)

Inductive exn : Type :=
| RegException (msg : string) (errorCode : Z)
| invalid_argument (msg : string)
| overflow_error (msg : string).

Inductive fault : Type :=
| subscript_out_of_range (pos sz : Z)
| read_out_of_bounds (pos sz : Z)
| write_out_of_bounds (pos sz : Z).

Inductive outcome (A : Type) : Type :=
| Ok (a : A)
| Throw (e : exn)
| Undefined (f : fault)
| NoFuel.

Arguments Ok {A} a.
Arguments Throw {A} e.
Arguments Undefined {A} f.
Arguments NoFuel {A}.

Definition obind {A B} (x : outcome A) (k : A -> outcome B) : outcome B :=
  match x with
  | Ok a => k a
  | Throw e => Throw e
  | Undefined f => Undefined f
  | NoFuel => NoFuel
  end.

(** ** Memory seen as bytes *)

(** [reinterpret_cast<BYTE*>] of wide-character storage: two bytes per unit,
    low byte first. *)
Definition wchar_bytes (c : Z) : list Z := [c mod 256; (c / 256) mod 256].

Definition bytes_of_wchars (l : list Z) : list Z := flat_map wchar_bytes l.

Fixpoint wchars_of_bytes (l : list Z) : list Z :=
  match l with
  | lo :: hi :: r => (lo + 256 * hi) :: wchars_of_bytes r
  | _ => []
  end.

Definition dword_bytes (d : Z) : list Z :=
  [d mod 256; (d / 256) mod 256; (d / 65536) mod 256; (d / 16777216) mod 256].

Definition dword_of_bytes (l : list Z) : Z :=
  match l with
  | b0 :: b1 :: b2 :: b3 :: _ => b0 + 256 * b1 + 65536 * b2 + 16777216 * b3
  | _ => 0
  end.

(** Writing [data] at the start of the region [mem]. *)
Definition poke (mem data : list Z) : list Z :=
  data ++ drop (length data) mem.

(** [std::basic_string::resize] and [std::vector::resize] with value
    initialisation: truncate, or pad with zero units. *)
Definition resize (n : Z) (l : list Z) : list Z :=
  take (Z.to_nat n) l ++ replicate (Z.to_nat n - length l)%nat 0.

(** [str[pos]] on a [std::wstring]: defined for [pos <= size()], where
    [str[size()]] is the terminator. *)
Definition wstring_at (str : wstring) (pos : Z) : outcome Z :=
  if (0 <=? pos) && (pos <=? zlen str)
  then Ok (nth (Z.to_nat pos) str 0)
  else Undefined (subscript_out_of_range pos (zlen str)).

(** The storage behind [&str[0]] / [str.c_str()]: the units and the
    terminator. *)
Definition wstring_storage (str : wstring) : list Z := str ++ [0].

(** [&v[0]] on a [std::vector]: [operator[]] requires [pos < size()]. *)
Definition vector_front_addr (v : list Z) : outcome (list Z) :=
  match v with
  | [] => Undefined (subscript_out_of_range 0 0)
  | _ => Ok v
  end.

(** [*p] where [p] points [pos] units into [mem]. *)
Definition read_at (mem : list Z) (pos : nat) : outcome Z :=
  match mem !! pos with
  | Some c => Ok c
  | None => Undefined (read_out_of_bounds (Z.of_nat pos) (zlen mem))
  end.

(** [*p = c]. *)
Definition write_at (mem : list Z) (pos : nat) (c : Z) : outcome (list Z) :=
  if decide (pos < length mem)%nat
  then Ok (<[pos := c]> mem)
  else Undefined (write_out_of_bounds (Z.of_nat pos) (zlen mem)).

(** [wmemcpy(mem + pos, src, count)] with [src] holding exactly the [count]
    units copied. *)
Definition wmemcpy (mem : list Z) (pos : nat) (src : list Z) : outcome (list Z) :=
  if decide (pos + length src <= length mem)%nat
  then Ok (take pos mem ++ src ++ drop (pos + length src) mem)
  else Undefined (write_out_of_bounds (Z.of_nat (pos + length src)) (zlen mem)).

(** [wcslen(p)] where [p] points [pos] units into [mem]: the number of units
    before the first zero unit; a scan that reaches the end of the region
    reads past it. *)
Fixpoint wcslen_scan (rest : list Z) : option nat :=
  match rest with
  | [] => None
  | c :: r => if c =? 0 then Some 0%nat else S <$> wcslen_scan r
  end.

Definition wcslen (mem : list Z) (pos : nat) : outcome nat :=
  match wcslen_scan (drop pos mem) with
  | Some n => Ok n
  | None => Undefined (read_out_of_bounds (Z.of_nat (pos `max` length mem)) (zlen mem))
  end.

(** ** The platform calls

    A reference model of the store primitives the wrappers call, after the
    documentation of the Windows API; the repository includes [Windows.h] and
    defines none of this.  A registry value is a type tag and raw bytes under
    a (key handle, value name) pair; a call on a handle that is not open
    reports [ERROR_INVALID_HANDLE]. *)

Definition HKEY : Type := Z.
Definition nullptr : HKEY := 0.

(** Constants of the Windows SDK headers [winerror.h] and [winnt.h], with the
    values they have there. *)
Definition ERROR_SUCCESS : Z := 0.
Definition ERROR_FILE_NOT_FOUND : Z := 2.
Definition ERROR_INVALID_HANDLE : Z := 6.
Definition ERROR_MORE_DATA : Z := 234.

Definition REG_NONE : Z := 0.
Definition REG_SZ : Z := 1.
Definition REG_EXPAND_SZ : Z := 2.
Definition REG_BINARY : Z := 3.
Definition REG_DWORD : Z := 4.
Definition REG_MULTI_SZ : Z := 7.

Record RegEntry : Type := mkEntry { entry_type : Z; entry_data : list Z }.

(** What crosses the boundary; [lpData] records whether a data buffer was
    passed, [data] the bytes handed to the store. *)
Inductive ApiCall : Type :=
| CallRegQueryValueEx (hKey : HKEY) (valueName : wstring) (lpData : bool) (cbData : Z)
| CallRegSetValueEx (hKey : HKEY) (valueName : wstring) (type : Z) (data : list Z)
| CallRegCloseKey (hKey : HKEY).

(** The store as the wrapper sees it through the handles it is given: an
    entry is found under the handle it was written through and its name.
    A handle stands for the key it was opened on; two handles opened on one
    key are not modelled, so what is stated about entries is stated for one
    handle at a time. *)
Record World : Type := mkWorld {
  registry : gmap (HKEY * wstring) RegEntry;
  open_keys : gset HKEY;
  heap : gmap nat HKEY;       (* the [m_hKey] field of each live RegKey object *)
  calls : list ApiCall        (* platform calls made so far, oldest first *)
}.

Definition M (A : Type) : Type := World -> outcome A * World.

Definition ret {A} (a : A) : M A := fun w => (Ok a, w).
Definition throw {A} (e : exn) : M A := fun w => (Throw e, w).
Definition lift {A} (x : outcome A) : M A := fun w => (x, w).

Definition bind {A B} (m : M A) (k : A -> M B) : M B :=
  fun w =>
    match m w with
    | (Ok a, w') => k a w'
    | (Throw e, w') => (Throw e, w')
    | (Undefined f, w') => (Undefined f, w')
    | (NoFuel, w') => (NoFuel, w')
    end.

Declare Scope m_scope.
Delimit Scope m_scope with M.
Notation "x <- c ;; k" := (bind c (fun x => k))
  (at level 100, c at next level, right associativity) : m_scope.
Notation "c ;;; k" := (bind c (fun _ => k))
  (at level 100, right associativity) : m_scope.

Definition logged (c : ApiCall) (w : World) : World :=
  mkWorld (registry w) (open_keys w) (heap w) (calls w ++ [c]).

Definition log (c : ApiCall) : M unit := fun w => (Ok tt, logged c w).

Definition get_world : M World := fun w => (Ok w, w).

Definition set_registry (r : gmap (HKEY * wstring) RegEntry) : M unit :=
  fun w => (Ok tt, mkWorld r (open_keys w) (heap w) (calls w)).

Definition set_open_keys (s : gset HKEY) : M unit :=
  fun w => (Ok tt, mkWorld (registry w) s (heap w) (calls w)).

Definition set_heap (h : gmap nat HKEY) : M unit :=
  fun w => (Ok tt, mkWorld (registry w) (open_keys w) h (calls w)).

Module Win32.

Local Open Scope M.

(** The results of [RegQueryValueEx]: the status, [*lpType], the caller's
    buffer after the call and [*lpcbData]. *)
Record QueryResult : Type := mkQuery {
  q_status : Z; q_type : Z; q_buffer : list Z; q_size : Z
}.

(** [RegQueryValueEx(hKey, valueName, nullptr, lpType, lpData, lpcbData)].
    [lpData] is [None] for a null pointer, otherwise the bytes addressable
    from it; [cbData] is the value of [*lpcbData] on entry.  With a buffer
    that is too small the call reports [ERROR_MORE_DATA] and the size needed;
    a store that is told of more room than the pointer has writes past it. *)
Definition RegQueryValueEx (hKey : HKEY) (valueName : wstring)
    (lpData : option (list Z)) (cbData : Z) : M QueryResult :=
  log (CallRegQueryValueEx hKey valueName (bool_decide (is_Some lpData)) cbData) ;;;
  w <- get_world ;;
  let buf := default [] lpData in
  if bool_decide (hKey ∈ open_keys w) then
    match registry w !! (hKey, valueName) with
    | None => ret (mkQuery ERROR_FILE_NOT_FOUND 0 buf cbData)
    | Some e =>
        let n := zlen (entry_data e) in
        match lpData with
        | None => ret (mkQuery ERROR_SUCCESS (entry_type e) buf n)
        | Some mem =>
            if n <=? cbData then
              if n <=? zlen mem
              then ret (mkQuery ERROR_SUCCESS (entry_type e) (poke mem (entry_data e)) n)
              else lift (Undefined (write_out_of_bounds n (zlen mem)))
            else ret (mkQuery ERROR_MORE_DATA (entry_type e) buf n)
        end
    end
  else ret (mkQuery ERROR_INVALID_HANDLE 0 buf cbData).

(** [RegSetValueEx(hKey, valueName, 0, type, lpData, cbData)]: the store keeps
    the first [cbData] bytes found at [lpData]. *)
Definition RegSetValueEx (hKey : HKEY) (valueName : wstring) (type : Z)
    (lpData : list Z) (cbData : Z) : M Z :=
  if cbData <=? zlen lpData then
    let data := take (Z.to_nat cbData) lpData in
    log (CallRegSetValueEx hKey valueName type data) ;;;
    w <- get_world ;;
    if bool_decide (hKey ∈ open_keys w) then
      set_registry (<[(hKey, valueName) := mkEntry type data]> (registry w)) ;;;
      ret ERROR_SUCCESS
    else ret ERROR_INVALID_HANDLE
  else lift (Undefined (read_out_of_bounds cbData (zlen lpData))).

(** [RegCloseKey(hKey)]. *)
Definition RegCloseKey (hKey : HKEY) : M Z :=
  log (CallRegCloseKey hKey) ;;;
  w <- get_world ;;
  if bool_decide (hKey ∈ open_keys w) then
    set_open_keys (open_keys w ∖ {[hKey]}) ;;;
    ret ERROR_SUCCESS
  else ret ERROR_INVALID_HANDLE.

End Win32.

(** ** RegValue: the variant-style registry value (WinReg.hpp) *)

Module RegValue.

Record t : Type := mk {
  m_typeId : Z;
  m_dword : Z;
  m_string : wstring;
  m_expandString : wstring;
  m_multiString : list wstring;
  m_binary : list Z
}.

(** [RegValue() = default]: the member initialisers. *)
Definition default_ctor : t := mk REG_NONE 0 [] [] [] [].

(** [explicit RegValue(TypeId type)]. *)
Definition ctor (typeId : Z) : t := mk typeId 0 [] [] [] [].

Definition GetType (v : t) : Z := m_typeId v.

Definition IsEmpty (v : t) : bool := m_typeId v =? REG_NONE.

Definition ResetValues (v : t) : t := mk (m_typeId v) 0 [] [] [] [].

Definition Reset (type : Z) (v : t) : t :=
  let v := ResetValues v in
  mk type (m_dword v) (m_string v) (m_expandString v) (m_multiString v) (m_binary v).

(** A reference to one payload slot of a value, as the non-const accessors
    return it: what it reads and how an assignment through it changes the
    value. *)
Record ref (T : Type) : Type := mkRef {
  deref : t -> T;
  assign : T -> t -> t
}.
Arguments mkRef {T}.
Arguments deref {T}.
Arguments assign {T}.

Definition ref_m_dword : ref Z :=
  mkRef m_dword
    (fun x v => mk (m_typeId v) x (m_string v) (m_expandString v) (m_multiString v) (m_binary v)).
Definition ref_m_string : ref wstring :=
  mkRef m_string
    (fun x v => mk (m_typeId v) (m_dword v) x (m_expandString v) (m_multiString v) (m_binary v)).
Definition ref_m_expandString : ref wstring :=
  mkRef m_expandString
    (fun x v => mk (m_typeId v) (m_dword v) (m_string v) x (m_multiString v) (m_binary v)).
Definition ref_m_multiString : ref (list wstring) :=
  mkRef m_multiString
    (fun x v => mk (m_typeId v) (m_dword v) (m_string v) (m_expandString v) x (m_binary v)).
Definition ref_m_binary : ref (list Z) :=
  mkRef m_binary
    (fun x v => mk (m_typeId v) (m_dword v) (m_string v) (m_expandString v) (m_multiString v) x).

(** The const accessors. *)
Definition Dword (v : t) : outcome Z :=
  if negb (m_typeId v =? REG_DWORD)
  then Throw (invalid_argument "RegValue::Dword() called on a non-DWORD registry value.")
  else Ok (m_dword v).

Definition String (v : t) : outcome wstring :=
  if negb (m_typeId v =? REG_SZ)
  then Throw (invalid_argument "RegValue::String() called on a non-REG_SZ registry value.")
  else Ok (m_string v).

Definition ExpandString (v : t) : outcome wstring :=
  if negb (m_typeId v =? REG_EXPAND_SZ)
  then Throw (invalid_argument
                "RegValue::ExpandString() called on a non-REG_EXPAND_SZ registry value.")
  else Ok (m_expandString v).

Definition MultiString (v : t) : outcome (list wstring) :=
  if negb (m_typeId v =? REG_MULTI_SZ)
  then Throw (invalid_argument
                "RegValue::MultiString() called on a non-REG_MULTI_SZ registry value.")
  else Ok (m_multiString v).

Definition Binary (v : t) : outcome (list Z) :=
  if negb (m_typeId v =? REG_BINARY)
  then Throw (invalid_argument "RegValue::Binary() called on a non-REG_BINARY registry value.")
  else Ok (m_binary v).

(** The non-const accessors. *)
Definition Dword_mut (v : t) : outcome (ref Z) :=
  if negb (m_typeId v =? REG_DWORD)
  then Throw (invalid_argument "RegValue::Dword() called on a non-DWORD registry value.")
  else Ok ref_m_dword.

Definition String_mut (v : t) : outcome (ref wstring) :=
  if negb (m_typeId v =? REG_SZ)
  then Throw (invalid_argument "RegValue::String() called on a non-REG_SZ registry value.")
  else Ok ref_m_string.

Definition ExpandString_mut (v : t) : outcome (ref wstring) :=
  if negb (m_typeId v =? REG_EXPAND_SZ)
  then Throw (invalid_argument
                "RegValue::ExpandString() called on a non-REG_EXPAND_SZ registry value.")
  else Ok ref_m_expandString.

Definition MultiString_mut (v : t) : outcome (ref (list wstring)) :=
  if negb (m_typeId v =? REG_MULTI_SZ)
  then Throw (invalid_argument
                "RegValue::MultiString() called on a non-REG_MULTI_SZ registry value.")
  else Ok ref_m_multiString.

Definition Binary_mut (v : t) : outcome (ref (list Z)) :=
  if negb (m_typeId v =? REG_BINARY)
  then Throw (invalid_argument "RegValue::Binary() called on a non-REG_BINARY registry value.")
  else Ok ref_m_binary.

(** [value.X() = x]: take the reference, assign through it. *)
Definition store {T} (acc : t -> outcome (ref T)) (x : T) (v : t) : outcome t :=
  obind (acc v) (fun r => Ok (assign r x v)).

End RegValue.

(** ** RegKey: the owning handle wrapper (WinReg.hpp)

    A [RegKey] object is identified by its address [this]; its only field,
    [m_hKey], lives in the [heap] of the world, so that two references to one
    object are one cell. *)

Module RegKey.

Local Open Scope M.

Definition m_hKey (this : nat) : M HKEY :=
  w <- get_world ;; ret (default nullptr (heap w !! this)).

Definition set_m_hKey (this : nat) (h : HKEY) : M unit :=
  w <- get_world ;; set_heap (<[this := h]> (heap w)).

(** [RegKey() noexcept]. *)
Definition default_ctor (this : nat) : M unit := set_m_hKey this nullptr.

(** [explicit RegKey(HKEY hKey) noexcept]. *)
Definition ctor (this : nat) (hKey : HKEY) : M unit := set_m_hKey this hKey.

(** [RegKey(RegKey&& other) noexcept]. *)
Definition move_ctor (this other : nat) : M unit :=
  h <- m_hKey other ;;
  set_m_hKey this h ;;;
  set_m_hKey other nullptr.

Definition Get (this : nat) : M HKEY := m_hKey this.

Definition Close (this : nat) : M unit :=
  h <- m_hKey this ;;
  (if negb (h =? nullptr)
   then (_ <- Win32.RegCloseKey h ;; ret tt)
   else ret tt) ;;;
  set_m_hKey this nullptr.

(** [RegKey& operator=(RegKey&& other) noexcept]. *)
Definition move_assign (this other : nat) : M unit :=
  if decide (other ≠ this) then
    Close this ;;;
    h <- m_hKey other ;;
    set_m_hKey this h ;;;
    set_m_hKey other nullptr
  else ret tt.

Definition IsValid (this : nat) : M bool :=
  h <- m_hKey this ;; ret (negb (h =? nullptr)).

Definition Detach (this : nat) : M HKEY :=
  hKey <- m_hKey this ;;
  set_m_hKey this nullptr ;;;
  ret hKey.

Definition Attach (this : nat) (hKey : HKEY) : M unit :=
  Close this ;;;
  set_m_hKey this hKey.

Definition Swap (this other : nat) : M unit :=
  a <- m_hKey this ;;
  b <- m_hKey other ;;
  set_m_hKey this b ;;;
  set_m_hKey other a.

(** [~RegKey() noexcept]; the object's storage goes away with it. *)
Definition dtor (this : nat) : M unit :=
  Close this ;;;
  w <- get_world ;; set_heap (delete this (heap w)).

End RegKey.

(** ** The helpers and the public functions of WinReg.cpp *)

Section WinReg.

Variable b : Build.

Local Open Scope M.

Definition SafeSizeToDwordCast (sz : Z) : outcome Z :=
  match b with
  | Build64 =>
      if sz >? DWORD_MAX
      then Throw (overflow_error
                    "SafeSizeToDwordCast(): Input size_t too long, it doesn't fit in a DWORD.")
      else Ok (to_DWORD sz)
  | Build32 => Ok (to_DWORD sz)
  end.

(** Reads a REG_DWORD value. *)
Definition ReadValueDwordInternal (hKey : HKEY) (valueName : wstring) : M RegValue.t :=
  let valueData := 0 in
  let valueSize := sizeof_DWORD in
  q <- Win32.RegQueryValueEx hKey valueName (Some (dword_bytes valueData)) valueSize ;;
  let valueData := dword_of_bytes (Win32.q_buffer q) in
  if negb (Win32.q_status q =? ERROR_SUCCESS) then
    throw (RegException "RegQueryValueEx() failed in returning REG_DWORD value."
                        (Win32.q_status q))
  else
    let value := RegValue.ctor REG_DWORD in
    lift (RegValue.store RegValue.Dword_mut valueData value).

(** The tail shared, word for word, by the REG_SZ and REG_EXPAND_SZ readers:
    strip the terminator the store wrote, if it wrote one. *)
Definition strip_terminator (stringBufferLenInWchars : Z) (str : wstring) : outcome wstring :=
  obind (wstring_at str (to_DWORD (stringBufferLenInWchars - 1)))
    (fun c =>
       if c =? 0
       then Ok (resize (to_DWORD (stringBufferLenInWchars - 1)) str)
       else Ok str).

(** Reads a REG_SZ value. *)
Definition ReadValueStringInternal (hKey : HKEY) (valueName : wstring) (valueSize : Z)
  : M RegValue.t :=
  let stringBufferLenInWchars := to_DWORD (valueSize / sizeof_wchar_t) in
  let str := resize stringBufferLenInWchars [] in
  let sizeInBytes := valueSize in
  q <- Win32.RegQueryValueEx hKey valueName
         (Some (bytes_of_wchars (wstring_storage str))) sizeInBytes ;;
  let str := take (length str) (wchars_of_bytes (Win32.q_buffer q)) in
  if negb (Win32.q_status q =? ERROR_SUCCESS) then
    throw (RegException "RegQueryValueEx() failed in returning REG_SZ value."
                        (Win32.q_status q))
  else
    str <- lift (strip_terminator stringBufferLenInWchars str) ;;
    let value := RegValue.ctor REG_SZ in
    lift (RegValue.store RegValue.String_mut str value).

(** Reads a REG_EXPAND_SZ value. *)
Definition ReadValueExpandStringInternal (hKey : HKEY) (valueName : wstring) (valueSize : Z)
  : M RegValue.t :=
  let stringBufferLenInWchars := to_DWORD (valueSize / sizeof_wchar_t) in
  let str := resize stringBufferLenInWchars [] in
  let sizeInBytes := valueSize in
  q <- Win32.RegQueryValueEx hKey valueName
         (Some (bytes_of_wchars (wstring_storage str))) sizeInBytes ;;
  let str := take (length str) (wchars_of_bytes (Win32.q_buffer q)) in
  if negb (Win32.q_status q =? ERROR_SUCCESS) then
    throw (RegException "RegQueryValueEx() failed in returning REG_EXPAND_SZ value."
                        (Win32.q_status q))
  else
    str <- lift (strip_terminator stringBufferLenInWchars str) ;;
    let value := RegValue.ctor REG_EXPAND_SZ in
    lift (RegValue.store RegValue.ExpandString_mut str value).

(** Reads a REG_BINARY value. *)
Definition ReadValueBinaryInternal (hKey : HKEY) (valueName : wstring) (valueSize : Z)
  : M RegValue.t :=
  let binaryData := resize valueSize [] in
  let sizeInBytes := valueSize in
  q <- Win32.RegQueryValueEx hKey valueName (Some binaryData) sizeInBytes ;;
  let binaryData := Win32.q_buffer q in
  if negb (Win32.q_status q =? ERROR_SUCCESS) then
    throw (RegException "RegQueryValueEx() failed in returning REG_BINARY value."
                        (Win32.q_status q))
  else
    let value := RegValue.ctor REG_BINARY in
    lift (RegValue.store RegValue.Binary_mut binaryData value).

(** The scanning loop of the REG_MULTI_SZ reader; [pszz] is the offset of the
    pointer into [buffer].  Each round moves [pszz] forward, so [fuel] above
    the length of the buffer is never used up ([multi_sz_scan_fuel]). *)
Fixpoint multi_sz_scan (fuel : nat) (buffer : list Z) (pszz : nat)
    (multiStrings : list wstring) : outcome (list wstring) :=
  match fuel with
  | O => NoFuel
  | S fuel' =>
      obind (read_at buffer pszz) (fun c =>
        if negb (c =? 0) then
          obind (wcslen buffer pszz) (fun len =>
            multi_sz_scan fuel' buffer (pszz + (len + 1))
              (multiStrings ++ [take len (drop pszz buffer)]))
        else Ok multiStrings)
  end.

(** Reads a REG_MULTI_SZ value. *)
Definition ReadValueMultiStringInternal (hKey : HKEY) (valueName : wstring) (valueSize : Z)
  : M RegValue.t :=
  let multiStrings := [] in
  let buffer := resize valueSize [] in
  let sizeInBytes := valueSize in
  q <- Win32.RegQueryValueEx hKey valueName (Some (bytes_of_wchars buffer)) sizeInBytes ;;
  let buffer := wchars_of_bytes (Win32.q_buffer q) in
  if negb (Win32.q_status q =? ERROR_SUCCESS) then
    throw (RegException "RegQueryValueEx() failed in returning REG_MULTI_SZ value."
                        (Win32.q_status q))
  else
    multiStrings <- lift (multi_sz_scan (S (length buffer)) buffer 0 multiStrings) ;;
    let value := RegValue.ctor REG_MULTI_SZ in
    lift (RegValue.store RegValue.MultiString_mut multiStrings value).

(** Helpers for SetValue(). *)

Definition WriteValueBinaryInternal (hKey : HKEY) (valueName : wstring) (value : RegValue.t)
  : M unit :=
  data <- lift (RegValue.Binary value) ;;
  dataSize <- lift (SafeSizeToDwordCast (zlen data)) ;;
  lpData <- lift (vector_front_addr data) ;;
  result <- Win32.RegSetValueEx hKey valueName REG_BINARY lpData dataSize ;;
  if negb (result =? ERROR_SUCCESS) then
    throw (RegException "RegSetValueEx() failed in writing REG_BINARY value." result)
  else ret tt.

Definition WriteValueDwordInternal (hKey : HKEY) (valueName : wstring) (value : RegValue.t)
  : M unit :=
  data <- lift (RegValue.Dword value) ;;
  let dataSize := sizeof_DWORD in
  result <- Win32.RegSetValueEx hKey valueName REG_DWORD (dword_bytes data) dataSize ;;
  if negb (result =? ERROR_SUCCESS) then
    throw (RegException "RegSetValueEx() failed in writing REG_DWORD value." result)
  else ret tt.

Definition WriteValueStringInternal (hKey : HKEY) (valueName : wstring) (value : RegValue.t)
  : M unit :=
  str <- lift (RegValue.String value) ;;
  dataSize <- lift (SafeSizeToDwordCast
                      (size_mul b (size_add b (zlen str) 1) sizeof_wchar_t)) ;;
  result <- Win32.RegSetValueEx hKey valueName REG_SZ
              (bytes_of_wchars (wstring_storage str)) dataSize ;;
  if negb (result =? ERROR_SUCCESS) then
    throw (RegException "RegSetValueEx() failed in writing REG_SZ value." result)
  else ret tt.

Definition WriteValueExpandStringInternal (hKey : HKEY) (valueName : wstring)
    (value : RegValue.t) : M unit :=
  str <- lift (RegValue.ExpandString value) ;;
  dataSize <- lift (SafeSizeToDwordCast
                      (size_mul b (size_add b (zlen str) 1) sizeof_wchar_t)) ;;
  result <- Win32.RegSetValueEx hKey valueName REG_EXPAND_SZ
              (bytes_of_wchars (wstring_storage str)) dataSize ;;
  if negb (result =? ERROR_SUCCESS) then
    throw (RegException "RegSetValueEx() failed in writing REG_EXPAND_SZ value." result)
  else ret tt.

(** The first loop of the REG_MULTI_SZ writer: the total buffer size in
    [wchar_t]s, before the final terminator is counted. *)
Fixpoint multi_sz_total (totalLen : Z) (multiString : list wstring) : Z :=
  match multiString with
  | [] => totalLen
  | s :: rest => multi_sz_total (size_add b totalLen (size_add b (zlen s) 1)) rest
  end.

(** The second loop: copy each string with its terminator at [dest], and move
    [dest] to the next slot. *)
Fixpoint multi_sz_copy (buffer : list Z) (dest : nat) (multiString : list wstring)
  : outcome (list Z * nat) :=
  match multiString with
  | [] => Ok (buffer, dest)
  | s :: rest =>
      obind (wmemcpy buffer dest (wstring_storage s)) (fun buffer =>
        multi_sz_copy buffer (dest + (length s + 1)) rest)
  end.

(** The buffer the REG_MULTI_SZ writer builds, with double-NUL termination. *)
Definition multi_sz_buffer (multiString : list wstring) : outcome (list Z) :=
  let buffer := [] in
  let totalLen := 0 in
  let totalLen := multi_sz_total totalLen multiString in
  let totalLen := size_add b totalLen 1 in
  let buffer := resize totalLen buffer in
  if negb (bool_decide (multiString = [])) then
    obind (vector_front_addr buffer) (fun _ =>
      obind (multi_sz_copy buffer 0 multiString) (fun '(buffer, dest) =>
        write_at buffer dest 0))
  else
    let buffer := resize 2 buffer in
    obind (write_at buffer 0 0) (fun buffer =>
      write_at buffer 1 0).

Definition WriteValueMultiStringInternal (hKey : HKEY) (valueName : wstring)
    (value : RegValue.t) : M unit :=
  multiString <- lift (RegValue.MultiString value) ;;
  buffer <- lift (multi_sz_buffer multiString) ;;
  dataSize <- lift (SafeSizeToDwordCast (size_mul b (zlen buffer) sizeof_wchar_t)) ;;
  result <- Win32.RegSetValueEx hKey valueName REG_MULTI_SZ
              (bytes_of_wchars buffer) dataSize ;;
  if negb (result =? ERROR_SUCCESS) then
    throw (RegException "RegSetValueEx() failed in writing REG_MULTI_SZ value." result)
  else ret tt.

(** Public functions. *)

Definition QueryValue (hKey : HKEY) (valueName : wstring) : M RegValue.t :=
  let dataSize := 0 in
  q <- Win32.RegQueryValueEx hKey valueName None dataSize ;;
  let valueType := Win32.q_type q in
  let dataSize := Win32.q_size q in
  if negb (Win32.q_status q =? ERROR_SUCCESS) then
    throw (RegException "RegQueryValueEx() failed in returning value info."
                        (Win32.q_status q))
  else if valueType =? REG_BINARY then ReadValueBinaryInternal hKey valueName dataSize
  else if valueType =? REG_DWORD then ReadValueDwordInternal hKey valueName
  else if valueType =? REG_SZ then ReadValueStringInternal hKey valueName dataSize
  else if valueType =? REG_EXPAND_SZ then ReadValueExpandStringInternal hKey valueName dataSize
  else if valueType =? REG_MULTI_SZ then ReadValueMultiStringInternal hKey valueName dataSize
  else throw (invalid_argument "Unsupported Windows Registry value type.").

Definition SetValue (hKey : HKEY) (valueName : wstring) (value : RegValue.t) : M unit :=
  let type := RegValue.GetType value in
  if type =? REG_BINARY then WriteValueBinaryInternal hKey valueName value
  else if type =? REG_DWORD then WriteValueDwordInternal hKey valueName value
  else if type =? REG_SZ then WriteValueStringInternal hKey valueName value
  else if type =? REG_EXPAND_SZ then WriteValueExpandStringInternal hKey valueName value
  else if type =? REG_MULTI_SZ then WriteValueMultiStringInternal hKey valueName value
  else throw (invalid_argument "Unsupported Windows Registry value type.").

End WinReg.

(** ** ExpandEnvironmentStrings

    The native [::ExpandEnvironmentStrings(lpSrc, lpDst, nSize)] reads the
    process environment, which the wrapper cannot see and which may change
    between its two calls; it is a parameter here, threading an environment of
    its own.  It returns the environment, the destination units after the call
    and the call's return value (0 on failure, otherwise the number of units
    the expansion needs, terminator included). *)

Section Expand.

Variable Env : Type.
Variable native_ExpandEnvironmentStrings :
  Env -> wstring -> option (list Z) -> Z -> Env * list Z * Z.

Definition ExpandEnvironmentStrings (source : wstring) (env : Env) : outcome wstring * Env :=
  let '(env, _, requiredLen) := native_ExpandEnvironmentStrings env source None 0 in
  if requiredLen =? 0 then (Ok [], env)
  else
    let str := resize requiredLen [] in
    let '(env, dst, len) :=
      native_ExpandEnvironmentStrings env source (Some (wstring_storage str)) requiredLen in
    let str := take (length str) dst in
    if len =? 0 then (Ok [], env)
    else (Ok (resize (to_DWORD (len - 1)) str), env).

End Expand.

(** ** The rest of WinReg.cpp: deleting values, enumerating value names, kind names *)

Definition ERROR_NO_MORE_ITEMS : Z := 259.

(** The names of the values the store holds under a key, in the order in
    which the store enumerates them. *)
Definition value_names (w : World) (hKey : HKEY) : list wstring :=
  omap (fun kv : HKEY * wstring * RegEntry =>
          if decide (kv.1.1 = hKey) then Some kv.1.2 else None)
       (map_to_list (registry w)).

(** Further calls of the registry API, modelled like those of [Win32]. *)
Module Advapi32.

Local Open Scope M.

(** [RegDeleteValue(hKey, valueName)]. *)
Definition RegDeleteValue (hKey : HKEY) (valueName : wstring) : M Z :=
  w <- get_world ;;
  if bool_decide (hKey ∈ open_keys w) then
    match registry w !! (hKey, valueName) with
    | None => ret ERROR_FILE_NOT_FOUND
    | Some _ =>
        set_registry (delete (hKey, valueName) (registry w)) ;;;
        ret ERROR_SUCCESS
    end
  else ret ERROR_INVALID_HANDLE.

(** The outputs of [RegQueryInfoKey] that [EnumerateValueNames] asks for:
    the status, [*lpcValues] and [*lpcbMaxValueNameLen] (in characters,
    terminator not counted). *)
Record KeyInfo : Type := mkInfo { i_status : Z; i_values : Z; i_maxValueNameLen : Z }.

Definition RegQueryInfoKey (hKey : HKEY) : M KeyInfo :=
  w <- get_world ;;
  if bool_decide (hKey ∈ open_keys w) then
    let names := value_names w hKey in
    ret (mkInfo ERROR_SUCCESS (zlen names) (foldr Z.max 0 (map zlen names)))
  else ret (mkInfo ERROR_INVALID_HANDLE 0 0).

(** The results of [RegEnumValue]: the status, the name buffer after the
    call and [*lpcchValueName]. *)
Record EnumResult : Type := mkEnum { e_status : Z; e_buffer : list Z; e_length : Z }.

(** [RegEnumValue(hKey, index, lpValueName, lpcchValueName, nullptr, ...)].
    On entry [cchValueName] is the room at [lpValueName] in characters,
    terminator included; on success the name and its terminator are written
    and the length without the terminator is returned. *)
Definition RegEnumValue (hKey : HKEY) (index : Z) (lpValueName : list Z) (cchValueName : Z)
  : M EnumResult :=
  w <- get_world ;;
  if bool_decide (hKey ∈ open_keys w) then
    match value_names w hKey !! Z.to_nat index with
    | None => ret (mkEnum ERROR_NO_MORE_ITEMS lpValueName cchValueName)
    | Some name =>
        if zlen name <? cchValueName then
          if zlen name + 1 <=? zlen lpValueName
          then ret (mkEnum ERROR_SUCCESS (poke lpValueName (name ++ [0])) (zlen name))
          else lift (Undefined (write_out_of_bounds (zlen name + 1) (zlen lpValueName)))
        else ret (mkEnum ERROR_MORE_DATA lpValueName cchValueName)
    end
  else ret (mkEnum ERROR_INVALID_HANDLE lpValueName cchValueName).

End Advapi32.

(** [std::wstring(p, len)]: the [len] units found at [p]. *)
Definition wstring_from (mem : list Z) (len : Z) : outcome wstring :=
  if len <=? zlen mem
  then Ok (take (Z.to_nat len) mem)
  else Undefined (read_out_of_bounds len (zlen mem)).

(** A wide string literal [L"..."]. *)
Definition L (s : string) : wstring :=
  map (fun a => Z.of_nat (Ascii.nat_of_ascii a)) (list_ascii_of_string s).

Section WinRegMore.

Variable b : Build.

Local Open Scope M.

Definition DeleteValue (hKey : HKEY) (valueName : wstring) : M unit :=
  result <- Advapi32.RegDeleteValue hKey valueName ;;
  if negb (result =? ERROR_SUCCESS) then
    throw (RegException "RegDeleteValue() failed." result)
  else ret tt.

(** The [for] loop of [EnumerateValueNames]: [remaining] rounds are left,
    [valueIndex] is the index of this round; the name buffer is reused from
    round to round. *)
Fixpoint EnumerateValueNames_loop (hKey : HKEY) (remaining : nat) (valueIndex : Z)
    (valueNameBuffer : list Z) (valueNames : list wstring) : M (list wstring) :=
  match remaining with
  | O => ret valueNames
  | S remaining =>
      valueNameLength <- lift (SafeSizeToDwordCast b (zlen valueNameBuffer)) ;;
      lpValueName <- lift (vector_front_addr valueNameBuffer) ;;
      e <- Advapi32.RegEnumValue hKey valueIndex lpValueName valueNameLength ;;
      let valueNameBuffer := Advapi32.e_buffer e in
      let valueNameLength := Advapi32.e_length e in
      if negb (Advapi32.e_status e =? ERROR_SUCCESS) then
        throw (RegException "RegEnumValue() failed to get value name." (Advapi32.e_status e))
      else
        name <- lift (wstring_from valueNameBuffer valueNameLength) ;;
        EnumerateValueNames_loop hKey remaining (to_DWORD (valueIndex + 1))
          valueNameBuffer (valueNames ++ [name])
  end.

Definition EnumerateValueNames (hKey : HKEY) : M (list wstring) :=
  info <- Advapi32.RegQueryInfoKey hKey ;;
  let valueCount := Advapi32.i_values info in
  let maxValueNameLength := Advapi32.i_maxValueNameLen info in
  if negb (Advapi32.i_status info =? ERROR_SUCCESS) then
    throw (RegException "RegQueryInfoKey() failed while trying to get value info."
                        (Advapi32.i_status info))
  else
    let valueNames := [] in
    let valueNameBuffer := resize (to_DWORD (maxValueNameLength + 1)) [] in
    EnumerateValueNames_loop hKey (Z.to_nat valueCount) 0 valueNameBuffer valueNames.

Definition ValueTypeIdToString (typeId : Z) : wstring :=
  if typeId =? REG_BINARY then L "REG_BINARY"
  else if typeId =? REG_DWORD then L "REG_DWORD"
  else if typeId =? REG_EXPAND_SZ then L "REG_EXPAND_SZ"
  else if typeId =? REG_MULTI_SZ then L "REG_MULTI_SZ"
  else if typeId =? REG_SZ then L "REG_SZ"
  else L "Unsupported/Unknown registry value type".

End WinRegMore.

(** [swap(RegKey& lhs, RegKey& rhs)], following the STL's pattern. *)
Definition swap (lhs rhs : nat) : M unit := RegKey.Swap lhs rhs.

(** ** Vocabulary of the statements, and the worlds they are tried on *)

(** The world after a [RegSetValueEx] that succeeded. *)
Definition stored (hKey : HKEY) (valueName : wstring) (type : Z) (data : list Z)
    (w : World) : World :=
  mkWorld (<[(hKey, valueName) := mkEntry type data]> (registry w)) (open_keys w) (heap w)
          (calls w ++ [CallRegSetValueEx hKey valueName type data]).

(** The strings of a list, each followed by its terminator, in order. *)
Definition terminated_strings (l : list wstring) : list Z := flat_map wstring_storage l.

(** The values a caller builds with the constructor, or [Reset], and the
    accessor of the kind: one slot set, the others as initialised. *)
Definition sz_value (type : Z) (str : wstring) : RegValue.t :=
  RegValue.mk type 0 (if type =? REG_SZ then str else [])
              (if type =? REG_EXPAND_SZ then str else []) [] [].

(** No unit of the string is the terminator. *)
Definition nul_free (s : wstring) : Prop := Forall (fun c => c <> 0) s.

Definition dword_value (x : Z) : RegValue.t := RegValue.mk REG_DWORD x [] [] [] [].
Definition multi_sz_value (l : list wstring) : RegValue.t :=
  RegValue.mk REG_MULTI_SZ 0 [] [] l [].
Definition binary_value (d : list Z) : RegValue.t := RegValue.mk REG_BINARY 0 [] [] [] d.

(** The buffer of the REG_MULTI_SZ writer, as the claim words it. *)
Definition multi_sz_framing (l : list wstring) : list Z :=
  match l with
  | [] => [0; 0]
  | _ => terminated_strings l ++ [0]
  end.

(** [SetValue(hKey, valueName, value)] followed by
    [QueryValue(hKey, valueName)]. *)
Definition write_then_read (b : Build) (hKey : HKEY) (valueName : wstring)
    (value : RegValue.t) (w : World) : outcome RegValue.t :=
  fst (bind (SetValue b hKey valueName value) (fun _ => QueryValue hKey valueName) w).

(** The [switch] of [QueryValue], entered with the kind and the size the
    store reported for the entry [e]. *)
Definition read_dispatch (hKey : HKEY) (valueName : wstring) (e : RegEntry) : M RegValue.t :=
  let valueType := entry_type e in
  let dataSize := zlen (entry_data e) in
  if valueType =? REG_BINARY then ReadValueBinaryInternal hKey valueName dataSize
  else if valueType =? REG_DWORD then ReadValueDwordInternal hKey valueName
  else if valueType =? REG_SZ then ReadValueStringInternal hKey valueName dataSize
  else if valueType =? REG_EXPAND_SZ then ReadValueExpandStringInternal hKey valueName dataSize
  else if valueType =? REG_MULTI_SZ then ReadValueMultiStringInternal hKey valueName dataSize
  else throw (invalid_argument "Unsupported Windows Registry value type.").

(** A world with one open key and nothing stored under it. *)
Definition hKey0 : HKEY := 256.
Definition world0 : World := mkWorld ∅ {[hKey0]} ∅ [].

(** The error kinds of the specification, as the exceptions the code
    throws for them. *)
Definition TypeMismatch (msg : string) : exn := invalid_argument msg.

Definition Overflow : exn :=
  overflow_error "SafeSizeToDwordCast(): Input size_t too long, it doesn't fit in a DWORD.".

(** The byte length of what [SetValue] hands to the store, by kind, computed
    without wrap-around. *)
Definition payload_bytes (value : RegValue.t) : Z :=
  let type := RegValue.m_typeId value in
  if type =? REG_BINARY then zlen (RegValue.m_binary value)
  else if type =? REG_DWORD then sizeof_DWORD
  else if type =? REG_SZ then (zlen (RegValue.m_string value) + 1) * sizeof_wchar_t
  else if type =? REG_EXPAND_SZ then (zlen (RegValue.m_expandString value) + 1) * sizeof_wchar_t
  else if type =? REG_MULTI_SZ
       then zlen (multi_sz_framing (RegValue.m_multiString value)) * sizeof_wchar_t
  else 0.

Definition supported_kind (type : Z) : Prop :=
  type = REG_DWORD \/ type = REG_SZ \/ type = REG_EXPAND_SZ \/ type = REG_MULTI_SZ \/
  type = REG_BINARY.

Definition UnsupportedValueKind : exn :=
  invalid_argument "Unsupported Windows Registry value type.".

(** A REG_QWORD (11) entry in the store, and a value left at REG_NONE. *)
Definition world_qword : World :=
  mkWorld {[ (hKey0, [81]) := mkEntry 11 [1; 2; 3; 4; 5; 6; 7; 8] ]} {[hKey0]} ∅ [].

(** The native call of a process whose every expansion is the one unit 87. *)
Definition native_W (env : unit) (lpSrc : wstring) (lpDst : option (list Z)) (nSize : Z)
  : unit * list Z * Z :=
  (tt, match lpDst with None => [] | Some mem => poke mem [87; 0] end, 2).

(** Two RegKey objects, at addresses 7 and 8; the first owns [hKey0]. *)
Definition world_keys : World :=
  mkWorld ∅ {[hKey0]} {[ 7%nat := hKey0; 8%nat := nullptr ]} [].

(** Entries of byte length zero, as another program may have left them. *)
Definition world_empty_sz : World :=
  mkWorld {[ (hKey0, [86]) := mkEntry REG_SZ [] ]} {[hKey0]} ∅ [].

Definition world_empty_multi_sz : World :=
  mkWorld {[ (hKey0, [77]) := mkEntry REG_MULTI_SZ [] ]} {[hKey0]} ∅ [].

(** A text entry stored with or without its terminator. *)
Definition world_sz_forms (s : wstring) (terminated : bool) : World :=
  mkWorld {[ (hKey0, [86]) :=
               mkEntry REG_SZ (bytes_of_wchars (if terminated then s ++ [0] else s)) ]}
          {[hKey0]} ∅ [].

(** "Ciao", "Hi", "Connie". *)
Definition Ciao_Hi_Connie : list wstring :=
  [[67; 105; 97; 111]; [72; 105]; [67; 111; 110; 110; 105; 101]].

(** "Hello World". *)
Definition Hello_World : wstring := [72; 101; 108; 108; 111; 32; 87; 111; 114; 108; 100].

(** Only the slot of the value's kind holds anything. *)
Definition canonical (v : RegValue.t) : Prop :=
  (RegValue.m_typeId v <> REG_DWORD -> RegValue.m_dword v = 0) /\
  (RegValue.m_typeId v <> REG_SZ -> RegValue.m_string v = []) /\
  (RegValue.m_typeId v <> REG_EXPAND_SZ -> RegValue.m_expandString v = []) /\
  (RegValue.m_typeId v <> REG_MULTI_SZ -> RegValue.m_multiString v = []) /\
  (RegValue.m_typeId v <> REG_BINARY -> RegValue.m_binary v = []).

(** The values a caller obtains with the constructors, [Reset], and
    assignments of the form [value.X() = x], where the reference the
    non-const accessor returns is used at once and not kept.  The accessors
    return references into the object, so a caller may also keep one and
    assign through it later: [obtained] below covers that. *)
Inductive built : RegValue.t -> Prop :=
| built_default_ctor : built RegValue.default_ctor
| built_ctor type : built (RegValue.ctor type)
| built_Reset type v : built v -> built (RegValue.Reset type v)
| built_Dword x v v' :
    built v -> RegValue.store RegValue.Dword_mut x v = Ok v' -> built v'
| built_String s v v' :
    built v -> RegValue.store RegValue.String_mut s v = Ok v' -> built v'
| built_ExpandString s v v' :
    built v -> RegValue.store RegValue.ExpandString_mut s v = Ok v' -> built v'
| built_MultiString l v v' :
    built v -> RegValue.store RegValue.MultiString_mut l v = Ok v' -> built v'
| built_Binary d v v' :
    built v -> RegValue.store RegValue.Binary_mut d v = Ok v' -> built v'.

(** A reference a caller holds on to, whatever the type of its slot. *)
Inductive kept : Type :=
| Kept {T : Type} (r : RegValue.ref T).

(** [obtained refs v]: a caller can bring a RegValue object to the state [v]
    while holding the references [refs] that calls of the non-const
    accessors have returned on the way.  A reference stays usable after
    [Reset], which assigns to the members and destroys none, so an
    assignment may go through any reference held. *)
Inductive obtained : list kept -> RegValue.t -> Prop :=
| obtained_default_ctor : obtained [] RegValue.default_ctor
| obtained_ctor type : obtained [] (RegValue.ctor type)
| obtained_Reset type refs v : obtained refs v -> obtained refs (RegValue.Reset type v)
| obtained_Dword r refs v :
    obtained refs v -> RegValue.Dword_mut v = Ok r -> obtained (Kept r :: refs) v
| obtained_String r refs v :
    obtained refs v -> RegValue.String_mut v = Ok r -> obtained (Kept r :: refs) v
| obtained_ExpandString r refs v :
    obtained refs v -> RegValue.ExpandString_mut v = Ok r -> obtained (Kept r :: refs) v
| obtained_MultiString r refs v :
    obtained refs v -> RegValue.MultiString_mut v = Ok r -> obtained (Kept r :: refs) v
| obtained_Binary r refs v :
    obtained refs v -> RegValue.Binary_mut v = Ok r -> obtained (Kept r :: refs) v
| obtained_assign {T : Type} (r : RegValue.ref T) (x : T) refs v :
    obtained refs v -> Kept r ∈ refs -> obtained refs (RegValue.assign r x v).

(** What the store is given of a value, and what a reader makes of it: the
    value of the same kind that holds the payload of that kind and nothing
    in its other slots. *)
Definition payload_only (v : RegValue.t) : RegValue.t :=
  let type := RegValue.m_typeId v in
  if type =? REG_BINARY then binary_value (RegValue.m_binary v)
  else if type =? REG_DWORD then dword_value (RegValue.m_dword v)
  else if type =? REG_SZ then sz_value REG_SZ (RegValue.m_string v)
  else if type =? REG_EXPAND_SZ then sz_value REG_EXPAND_SZ (RegValue.m_expandString v)
  else if type =? REG_MULTI_SZ then multi_sz_value (RegValue.m_multiString v)
  else RegValue.ctor type.

(** The payloads for which the round trip through the store is proved, by
    kind. *)
Definition encodable (v : RegValue.t) : Prop :=
  let type := RegValue.m_typeId v in
  if type =? REG_BINARY
  then RegValue.m_binary v <> [] /\ zlen (RegValue.m_binary v) <= DWORD_MAX
  else if type =? REG_DWORD then is_DWORD (RegValue.m_dword v)
  else if type =? REG_SZ
  then Forall is_wchar (RegValue.m_string v) /\
       (zlen (RegValue.m_string v) + 1) * 2 <= DWORD_MAX
  else if type =? REG_EXPAND_SZ
  then Forall is_wchar (RegValue.m_expandString v) /\
       (zlen (RegValue.m_expandString v) + 1) * 2 <= DWORD_MAX
  else if type =? REG_MULTI_SZ
  then Forall (Forall is_wchar) (RegValue.m_multiString v) /\
       Forall (fun s => s <> [] /\ nul_free s) (RegValue.m_multiString v) /\
       (zlen (terminated_strings (RegValue.m_multiString v)) + 2) * 2 <= DWORD_MAX
  else False.

(** No handle is owned by two RegKey objects. *)
Definition exclusive (w : World) : Prop :=
  forall i j h, heap w !! i = Some h -> heap w !! j = Some h -> h <> nullptr -> i = j.

(** Two worlds look the same through the key [hKey] and the name
    [valueName]. *)
Definition same_view (hKey : HKEY) (valueName : wstring) (w1 w2 : World) : Prop :=
  (hKey ∈ open_keys w1 <-> hKey ∈ open_keys w2) /\
  registry w1 !! (hKey, valueName) = registry w2 !! (hKey, valueName).

(** A computation whose result depends on the world only through that view,
    and which keeps the view. *)
Definition respects {A} (hKey : HKEY) (valueName : wstring) (m : M A) : Prop :=
  forall w1 w2, same_view hKey valueName w1 w2 ->
    (m w1).1 = (m w2).1 /\ same_view hKey valueName (m w1).2 (m w2).2.


(** An entry under [hKey0] named by the unit 86, and a second one. *)
Definition world_two_values : World :=
  mkWorld {[ (hKey0, [86]) := mkEntry REG_SZ [72; 0; 105; 0; 0; 0];
             (hKey0, [87]) := mkEntry REG_DWORD [100; 0; 0; 0] ]} {[hKey0]} ∅ [].

(** The handle a RegKey object holds. *)
Definition owner (w : World) (this : nat) : HKEY := default nullptr (heap w !! this).

(** The world after [Close] on the object at [this]. *)
Definition after_Close (this : nat) (w : World) : World :=
  let h := owner w this in
  if h =? nullptr
  then mkWorld (registry w) (open_keys w) (<[this := nullptr]> (heap w)) (calls w)
  else mkWorld (registry w) (open_keys w ∖ {[h]}) (<[this := nullptr]> (heap w))
               (calls w ++ [CallRegCloseKey h]).

(** The [RegCloseKey] call that releases [h], if [h] is a handle. *)
Definition release (h : HKEY) : list ApiCall :=
  if h =? nullptr then [] else [CallRegCloseKey h].

(** A scope that wraps [h] in one RegKey, moves it into a second, and ends:
    [{ RegKey a(h); RegKey b(std::move(a)); }]. *)
Definition scope_with_move (a b : nat) (h : HKEY) : M unit :=
  bind (RegKey.ctor a h) (fun _ =>
  bind (RegKey.move_ctor b a) (fun _ =>
  bind (RegKey.dtor b) (fun _ => RegKey.dtor a))).

(** The exception of [QueryValue] when its size-and-kind query fails. *)
Definition value_info_failed (code : Z) : exn :=
  RegException "RegQueryValueEx() failed in returning value info." code.

(** The names under a key are short enough, and few enough, for the
    [DWORD] lengths and indices of the enumeration. *)
Definition names_fit (w : World) (hKey : HKEY) : Prop :=
  Forall (fun name => zlen name < DWORD_MAX) (value_names w hKey) /\
  zlen (value_names w hKey) <= DWORD_MAX.

(** ** Facts about the memory model *)

Lemma zlen_nil {A} : zlen (@nil A) = 0.
Proof. reflexivity. Qed.

Lemma zlen_cons {A} (x : A) l : zlen (x :: l) = zlen l + 1.
Proof. unfold zlen. simpl length. lia. Qed.

Lemma zlen_app {A} (l1 l2 : list A) : zlen (l1 ++ l2) = zlen l1 + zlen l2.
Proof. unfold zlen. rewrite length_app. lia. Qed.

Lemma zlen_snoc {A} (l : list A) (x : A) : zlen (l ++ [x]) = zlen l + 1.
Proof. unfold zlen. rewrite length_app. simpl length. lia. Qed.

Lemma zlen_nonneg {A} (l : list A) : 0 <= zlen l.
Proof. unfold zlen. lia. Qed.

Lemma to_DWORD_small n : 0 <= n <= DWORD_MAX -> to_DWORD n = n.
Proof. intros H. unfold to_DWORD, DWORD_MAX in *. apply Z.mod_small. lia. Qed.

Lemma to_size_t_small b n : 0 <= n <= SIZE_MAX b -> to_size_t b n = n.
Proof. intros H. unfold to_size_t. apply Z.mod_small. lia. Qed.

Lemma DWORD_MAX_le_SIZE_MAX b : DWORD_MAX <= SIZE_MAX b.
Proof. destruct b; unfold DWORD_MAX, SIZE_MAX; lia. Qed.

Lemma length_bytes_of_wchars l : length (bytes_of_wchars l) = (2 * length l)%nat.
Proof. induction l as [|c l IH]; simpl; [done | lia]. Qed.

Lemma zlen_bytes_of_wchars l : zlen (bytes_of_wchars l) = 2 * zlen l.
Proof. unfold zlen. rewrite length_bytes_of_wchars. lia. Qed.

Lemma bytes_of_wchars_app l1 l2 :
  bytes_of_wchars (l1 ++ l2) = bytes_of_wchars l1 ++ bytes_of_wchars l2.
Proof. unfold bytes_of_wchars. apply flat_map_app. Qed.

Lemma wchar_roundtrip c : is_wchar c -> c mod 256 + 256 * ((c / 256) mod 256) = c.
Proof.
  intros [H0 H1].
  rewrite (Z.mod_small (c / 256)) by (split; [apply Z.div_pos; lia | apply Z.div_lt_upper_bound; lia]).
  rewrite (Z.div_mod c 256) at 3 by lia. lia.
Qed.

Lemma wchars_of_bytes_app l r :
  Forall is_wchar l ->
  wchars_of_bytes (bytes_of_wchars l ++ r) = l ++ wchars_of_bytes r.
Proof.
  induction 1 as [|c l Hc _ IH]; [done |].
  cbn [bytes_of_wchars flat_map wchar_bytes app wchars_of_bytes].
  change (flat_map wchar_bytes l) with (bytes_of_wchars l).
  rewrite IH, wchar_roundtrip by done. done.
Qed.

Lemma wchars_of_bytes_of_wchars l :
  Forall is_wchar l -> wchars_of_bytes (bytes_of_wchars l) = l.
Proof.
  intros H. rewrite <- (app_nil_r (bytes_of_wchars l)).
  rewrite wchars_of_bytes_app by done. simpl. apply app_nil_r.
Qed.

Lemma bytes_of_wchars_zeros n : bytes_of_wchars (replicate n 0) = replicate (2 * n) 0.
Proof.
  induction n as [|n IH]; [done |].
  replace (2 * S n)%nat with (S (S (2 * n))) by lia.
  cbn [replicate bytes_of_wchars flat_map wchar_bytes app].
  change (flat_map wchar_bytes (replicate n 0)) with (bytes_of_wchars (replicate n 0)).
  by rewrite IH.
Qed.

Lemma wchars_of_bytes_zeros n : wchars_of_bytes (replicate (2 * n) 0) = replicate n 0.
Proof.
  rewrite <- bytes_of_wchars_zeros. apply wchars_of_bytes_of_wchars.
  apply Forall_replicate. unfold is_wchar. lia.
Qed.

Lemma resize_nil n : resize n [] = replicate (Z.to_nat n) 0.
Proof. unfold resize. rewrite take_nil. simpl. f_equal. lia. Qed.

Lemma dword_roundtrip d : is_DWORD d -> dword_of_bytes (dword_bytes d) = d.
Proof.
  unfold is_DWORD, DWORD_MAX, dword_of_bytes, dword_bytes. intros H.
  assert (H1 : d / 16777216 < 256) by (apply Z.div_lt_upper_bound; lia).
  assert (H2 : 0 <= d / 16777216) by (apply Z.div_pos; lia).
  rewrite (Z.mod_small (d / 16777216)) by lia.
  pose proof (Z.div_mod d 256 ltac:(lia)) as E1.
  pose proof (Z.div_mod (d / 256) 256 ltac:(lia)) as E2.
  pose proof (Z.div_mod (d / 65536) 256 ltac:(lia)) as E3.
  replace (d / 256 / 256) with (d / 65536) in E2 by (rewrite Z.div_div by lia; done).
  replace (d / 65536 / 256) with (d / 16777216) in E3 by (rewrite Z.div_div by lia; done).
  lia.
Qed.

(** ** Facts about the platform calls *)

Ltac run :=
  unfold bind, ret, throw, lift, log, get_world, set_registry, set_open_keys, set_heap;
  cbn beta iota.

Lemma RegQueryValueEx_info (hKey : HKEY) (valueName : wstring) (cbData : Z) (e : RegEntry)
    (w : World) :
  hKey ∈ open_keys w ->
  registry w !! (hKey, valueName) = Some e ->
  Win32.RegQueryValueEx hKey valueName None cbData w =
    (Ok (Win32.mkQuery ERROR_SUCCESS (entry_type e) [] (zlen (entry_data e))),
     logged (CallRegQueryValueEx hKey valueName false cbData) w).
Proof.
  intros Hopen Hlook. unfold Win32.RegQueryValueEx. run.
  cbn [open_keys registry logged].
  rewrite bool_decide_eq_true_2 by done. rewrite Hlook. done.
Qed.

Lemma RegQueryValueEx_data (hKey : HKEY) (valueName : wstring) (mem : list Z) (cbData : Z)
    (e : RegEntry) (w : World) :
  hKey ∈ open_keys w ->
  registry w !! (hKey, valueName) = Some e ->
  zlen (entry_data e) <= cbData ->
  zlen (entry_data e) <= zlen mem ->
  Win32.RegQueryValueEx hKey valueName (Some mem) cbData w =
    (Ok (Win32.mkQuery ERROR_SUCCESS (entry_type e) (poke mem (entry_data e))
           (zlen (entry_data e))),
     logged (CallRegQueryValueEx hKey valueName true cbData) w).
Proof.
  intros Hopen Hlook Hcb Hmem. unfold Win32.RegQueryValueEx. run.
  cbn [open_keys registry logged].
  rewrite bool_decide_eq_true_2 by done. rewrite Hlook.
  rewrite (proj2 (Z.leb_le _ _) Hcb), (proj2 (Z.leb_le _ _) Hmem). done.
Qed.

Lemma RegSetValueEx_ok (hKey : HKEY) (valueName : wstring) (type : Z) (lpData : list Z)
    (cbData : Z) (w : World) :
  hKey ∈ open_keys w ->
  cbData = zlen lpData ->
  Win32.RegSetValueEx hKey valueName type lpData cbData w =
    (Ok ERROR_SUCCESS, stored hKey valueName type lpData w).
Proof.
  intros Hopen ->. unfold Win32.RegSetValueEx. run.
  rewrite Z.leb_refl. cbn [open_keys registry logged].
  rewrite bool_decide_eq_true_2 by done.
  unfold zlen. rewrite Nat2Z.id, firstn_all. done.
Qed.

Lemma stored_lookup hKey valueName type data w :
  registry (stored hKey valueName type data w) !! (hKey, valueName) = Some (mkEntry type data).
Proof. unfold stored. cbn [registry]. apply lookup_insert_eq. Qed.


(** ** The REG_MULTI_SZ writer builds the double-NUL framing *)

Lemma wmemcpy_app pre mid post src :
  length mid = length src ->
  wmemcpy (pre ++ mid ++ post) (length pre) src = Ok (pre ++ src ++ post).
Proof.
  intros Hlen. unfold wmemcpy.
  rewrite decide_True by (rewrite !length_app; lia).
  rewrite take_app_length. f_equal. f_equal. f_equal.
  rewrite <- Hlen, <- length_app, app_assoc. apply drop_app_length.
Qed.

Lemma multi_sz_copy_app (l : list wstring) : forall pre mid post,
  length mid = length (terminated_strings l) ->
  multi_sz_copy (pre ++ mid ++ post) (length pre) l =
    Ok (pre ++ terminated_strings l ++ post, (length pre + length (terminated_strings l))%nat).
Proof.
  induction l as [|s r IH]; intros pre mid post Hlen.
  - destruct mid; [| done]. simpl. f_equal. f_equal. lia.
  - cbn [multi_sz_copy terminated_strings flat_map] in *.
    change (flat_map wstring_storage r) with (terminated_strings r) in *.
    rewrite length_app in Hlen.
    rewrite <- (take_drop (length (wstring_storage s)) mid).
    rewrite <- (app_assoc (take _ mid)).
    rewrite wmemcpy_app by (rewrite length_take; lia).
    cbn [obind].
    replace (length pre + (length s + 1))%nat with (length (pre ++ wstring_storage s))
      by (unfold wstring_storage; rewrite !length_app; simpl; lia).
    rewrite (app_assoc pre (wstring_storage s)).
    rewrite IH by (rewrite length_drop; lia).
    rewrite <- !app_assoc. f_equal. f_equal.
    rewrite !length_app. lia.
Qed.

Lemma multi_sz_total_exact b (l : list wstring) : forall acc,
  0 <= acc ->
  acc + zlen (terminated_strings l) <= SIZE_MAX b ->
  multi_sz_total b acc l = acc + zlen (terminated_strings l).
Proof.
  induction l as [|s r IH]; intros acc Hacc Hfit.
  - simpl. rewrite zlen_nil. lia.
  - cbn [multi_sz_total terminated_strings flat_map] in *.
    change (flat_map wstring_storage r) with (terminated_strings r) in *.
    unfold wstring_storage in *. rewrite !zlen_app, zlen_cons, zlen_nil in *.
    pose proof (zlen_nonneg s). pose proof (zlen_nonneg (terminated_strings r)).
    unfold size_add.
    rewrite (to_size_t_small b (zlen s + 1)) by lia.
    rewrite to_size_t_small by lia.
    rewrite IH by lia. lia.
Qed.

Lemma multi_sz_buffer_nonempty b (l : list wstring) :
  l <> [] ->
  zlen (terminated_strings l) + 1 <= SIZE_MAX b ->
  multi_sz_buffer b l = Ok (terminated_strings l ++ [0]).
Proof.
  intros Hne Hfit. unfold multi_sz_buffer.
  rewrite bool_decide_eq_false_2 by done. cbn [negb].
  pose proof (zlen_nonneg (terminated_strings l)) as Hpos.
  rewrite multi_sz_total_exact by lia.
  unfold size_add. rewrite to_size_t_small by lia.
  rewrite resize_nil.
  replace (Z.to_nat (0 + zlen (terminated_strings l) + 1))
    with (length (terminated_strings l) + 1)%nat by (unfold zlen; lia).
  rewrite replicate_add. cbn [replicate].
  destruct (replicate (length (terminated_strings l)) 0 ++ [0]) eqn:Hbuf.
  { destruct (replicate (length (terminated_strings l)) 0); done. }
  cbn [vector_front_addr obind]. rewrite <- Hbuf. clear Hbuf.
  pose proof (multi_sz_copy_app l [] (replicate (length (terminated_strings l)) 0) [0]) as Hcopy.
  cbn [app length] in Hcopy. rewrite Hcopy by apply length_replicate.
  cbn [obind Nat.add]. unfold write_at.
  rewrite decide_True by (rewrite length_app; simpl; lia).
  f_equal. rewrite insert_app_r_alt by lia.
  rewrite Nat.sub_diag. done.
Qed.

Lemma multi_sz_buffer_empty b : multi_sz_buffer b [] = Ok [0; 0].
Proof. destruct b; reflexivity. Qed.

(** ** What the readers make of the stored bytes *)

Lemma fetch_wide_string (u : wstring) :
  Forall is_wchar u ->
  take (length (resize (zlen u) []))
       (wchars_of_bytes
          (poke (bytes_of_wchars (wstring_storage (resize (zlen u) []))) (bytes_of_wchars u)))
  = u.
Proof.
  intros Hu. rewrite resize_nil. unfold zlen. rewrite Nat2Z.id.
  unfold poke, wstring_storage.
  rewrite length_replicate, bytes_of_wchars_app, bytes_of_wchars_zeros.
  rewrite length_bytes_of_wchars, drop_app_length'
    by (rewrite length_replicate; lia).
  rewrite wchars_of_bytes_app by done.
  apply take_app_length.
Qed.

Ltac read_wide_string u Hopen Hlook Hu Hfit :=
  run;
  rewrite Z.div_mul, to_DWORD_small by (pose proof (zlen_nonneg u); lia);
  erewrite RegQueryValueEx_data;
    [ | exact Hopen | exact Hlook
      | cbn [entry_data]; rewrite zlen_bytes_of_wchars; lia
      | cbn [entry_data]; unfold wstring_storage;
        rewrite !zlen_bytes_of_wchars, zlen_app, resize_nil;
        unfold zlen; rewrite length_replicate; simpl length; lia ];
  cbn [Win32.q_status Win32.q_buffer entry_data];
  rewrite fetch_wide_string by exact Hu;
  cbn [Z.eqb ERROR_SUCCESS negb].

Lemma ReadValueStringInternal_units (hKey : HKEY) (valueName : wstring) (type : Z)
    (u : wstring) (w : World) :
  hKey ∈ open_keys w ->
  registry w !! (hKey, valueName) = Some (mkEntry type (bytes_of_wchars u)) ->
  Forall is_wchar u ->
  2 * zlen u <= DWORD_MAX ->
  ReadValueStringInternal hKey valueName (2 * zlen u) w =
    (obind (strip_terminator (zlen u) u) (fun str => Ok (sz_value REG_SZ str)),
     logged (CallRegQueryValueEx hKey valueName true (2 * zlen u)) w).
Proof.
  intros Hopen Hlook Hu Hfit. unfold ReadValueStringInternal, sizeof_wchar_t.
  rewrite (Z.mul_comm 2).
  read_wide_string u Hopen Hlook Hu Hfit.
  destruct (strip_terminator (zlen u) u); done.
Qed.

Lemma ReadValueExpandStringInternal_units (hKey : HKEY) (valueName : wstring) (type : Z)
    (u : wstring) (w : World) :
  hKey ∈ open_keys w ->
  registry w !! (hKey, valueName) = Some (mkEntry type (bytes_of_wchars u)) ->
  Forall is_wchar u ->
  2 * zlen u <= DWORD_MAX ->
  ReadValueExpandStringInternal hKey valueName (2 * zlen u) w =
    (obind (strip_terminator (zlen u) u) (fun str => Ok (sz_value REG_EXPAND_SZ str)),
     logged (CallRegQueryValueEx hKey valueName true (2 * zlen u)) w).
Proof.
  intros Hopen Hlook Hu Hfit. unfold ReadValueExpandStringInternal, sizeof_wchar_t.
  rewrite (Z.mul_comm 2).
  read_wide_string u Hopen Hlook Hu Hfit.
  destruct (strip_terminator (zlen u) u); done.
Qed.

Lemma strip_terminator_terminated (s : wstring) :
  zlen s + 1 <= DWORD_MAX ->
  strip_terminator (zlen (s ++ [0])) (s ++ [0]) = Ok s.
Proof.
  intros Hfit. pose proof (zlen_nonneg s) as Hpos.
  unfold strip_terminator. rewrite zlen_snoc.
  replace (zlen s + 1 - 1) with (zlen s) by lia.
  rewrite to_DWORD_small by lia.
  unfold wstring_at. rewrite zlen_snoc.
  rewrite (proj2 (Z.leb_le 0 (zlen s))) by lia.
  rewrite (proj2 (Z.leb_le (zlen s) _)) by lia.
  cbn [andb obind]. unfold zlen at 1. rewrite Nat2Z.id, nth_middle.
  cbn [Z.eqb]. f_equal. unfold resize, zlen. rewrite Nat2Z.id.
  rewrite take_app_length, length_app. simpl length.
  replace (length s - (length s + 1))%nat with 0%nat by lia.
  apply app_nil_r.
Qed.

Lemma strip_terminator_unterminated (s : wstring) (c : Z) :
  c <> 0 ->
  zlen s + 1 <= DWORD_MAX ->
  strip_terminator (zlen (s ++ [c])) (s ++ [c]) = Ok (s ++ [c]).
Proof.
  intros Hc Hfit. pose proof (zlen_nonneg s) as Hpos.
  unfold strip_terminator. rewrite zlen_snoc.
  replace (zlen s + 1 - 1) with (zlen s) by lia.
  rewrite to_DWORD_small by lia.
  unfold wstring_at. rewrite zlen_snoc.
  rewrite (proj2 (Z.leb_le 0 (zlen s))) by lia.
  rewrite (proj2 (Z.leb_le (zlen s) _)) by lia.
  cbn [andb obind]. unfold zlen at 1. rewrite Nat2Z.id, nth_middle.
  rewrite (proj2 (Z.eqb_neq c 0)) by done. done.
Qed.

Lemma strip_terminator_empty :
  strip_terminator 0 [] = Undefined (subscript_out_of_range 4294967295 0).
Proof. reflexivity. Qed.

(** ** The scanning loop of the REG_MULTI_SZ reader *)

Lemma wcslen_scan_string (s r : list Z) :
  nul_free s -> wcslen_scan (s ++ 0 :: r) = Some (length s).
Proof.
  induction 1 as [|c s Hc _ IH]; [done |].
  cbn [app wcslen_scan length]. rewrite (proj2 (Z.eqb_neq c 0)) by done.
  by rewrite IH.
Qed.

Lemma multi_sz_scan_strings (l : list wstring) : forall fuel pre rest acc,
  Forall (fun s => s <> [] /\ nul_free s) l ->
  (length l < fuel)%nat ->
  multi_sz_scan fuel (pre ++ terminated_strings l ++ 0 :: rest) (length pre) acc
  = Ok (acc ++ l).
Proof.
  induction l as [|s l IH]; intros fuel pre rest acc Hl Hfuel.
  - destruct fuel as [|fuel]; [simpl in Hfuel; lia |].
    cbn [multi_sz_scan terminated_strings flat_map app].
    unfold read_at. rewrite list_lookup_middle by done.
    cbn [obind Z.eqb negb]. by rewrite app_nil_r.
  - destruct fuel as [|fuel]; [simpl in Hfuel; lia |].
    apply Forall_cons in Hl as [[Hne Hnul] Hl].
    cbn [multi_sz_scan terminated_strings flat_map].
    change (flat_map wstring_storage l) with (terminated_strings l).
    destruct s as [|c s]; [done |].
    pose proof (Forall_inv Hnul) as Hc. cbn beta in Hc.
    set (tl := terminated_strings l ++ 0 :: rest).
    assert (E : pre ++ (wstring_storage (c :: s) ++ terminated_strings l) ++ 0 :: rest
                = pre ++ (c :: s) ++ 0 :: tl)
      by (unfold wstring_storage, tl; rewrite <- !app_assoc; done).
    rewrite E. clear E.
    assert (Hread : (pre ++ (c :: s) ++ 0 :: tl) !! length pre = Some c)
      by (rewrite lookup_app_r, Nat.sub_diag by lia; done).
    unfold read_at. rewrite Hread. cbn [obind].
    rewrite (proj2 (Z.eqb_neq c 0)) by done. cbn [negb].
    unfold wcslen. rewrite drop_app_length, wcslen_scan_string by done.
    cbn [obind]. rewrite take_app_length.
    replace (length pre + (length (c :: s) + 1))%nat
      with (length (pre ++ (c :: s) ++ [0]))
      by (rewrite !length_app; simpl; lia).
    replace (pre ++ (c :: s) ++ 0 :: tl)
      with ((pre ++ (c :: s) ++ [0]) ++ terminated_strings l ++ 0 :: rest)
      by (unfold tl; rewrite <- !app_assoc; done).
    rewrite IH by (done || simpl in Hfuel; lia).
    by rewrite <- app_assoc.
Qed.

Lemma multi_sz_scan_fuel (buffer : list Z) : forall fuel pszz acc,
  (length buffer - pszz < fuel)%nat ->
  multi_sz_scan fuel buffer pszz acc <> NoFuel.
Proof.
  induction fuel as [|fuel IH]; intros pszz acc Hfuel; [lia |].
  cbn [multi_sz_scan]. unfold read_at.
  destruct (buffer !! pszz) as [c|] eqn:Hc; [| done].
  apply lookup_lt_Some in Hc. cbn [obind].
  destruct (c =? 0); cbn [negb]; [done |].
  unfold wcslen. destruct (wcslen_scan (drop pszz buffer)) as [len|]; cbn [obind]; [| done].
  apply IH. lia.
Qed.

Lemma ReadValueMultiStringInternal_units (hKey : HKEY) (valueName : wstring) (type : Z)
    (u : list Z) (w : World) :
  hKey ∈ open_keys w ->
  registry w !! (hKey, valueName) = Some (mkEntry type (bytes_of_wchars u)) ->
  Forall is_wchar u ->
  ReadValueMultiStringInternal hKey valueName (2 * zlen u) w =
    (obind (multi_sz_scan (S (length (u ++ replicate (length u) 0)))
                          (u ++ replicate (length u) 0) 0 [])
           (fun l => Ok (multi_sz_value l)),
     logged (CallRegQueryValueEx hKey valueName true (2 * zlen u)) w).
Proof.
  intros Hopen Hlook Hu. unfold ReadValueMultiStringInternal. run.
  rewrite resize_nil.
  replace (Z.to_nat (2 * zlen u)) with (2 * length u)%nat by (unfold zlen; lia).
  erewrite RegQueryValueEx_data;
    [ | exact Hopen | exact Hlook
      | cbn [entry_data]; rewrite zlen_bytes_of_wchars; lia
      | cbn [entry_data]; rewrite !zlen_bytes_of_wchars; unfold zlen;
        rewrite length_replicate; lia ].
  cbn [Win32.q_status Win32.q_buffer entry_data Z.eqb ERROR_SUCCESS negb].
  unfold poke.
  rewrite bytes_of_wchars_zeros, length_bytes_of_wchars, drop_replicate.
  replace (2 * (2 * length u) - 2 * length u)%nat with (2 * length u)%nat by lia.
  rewrite wchars_of_bytes_app, wchars_of_bytes_zeros by done.
  destruct (multi_sz_scan _ _ _ _); done.
Qed.

Lemma ReadValueBinaryInternal_bytes (hKey : HKEY) (valueName : wstring) (type : Z)
    (d : list Z) (w : World) :
  hKey ∈ open_keys w ->
  registry w !! (hKey, valueName) = Some (mkEntry type d) ->
  ReadValueBinaryInternal hKey valueName (zlen d) w =
    (Ok (binary_value d), logged (CallRegQueryValueEx hKey valueName true (zlen d)) w).
Proof.
  intros Hopen Hlook. unfold ReadValueBinaryInternal. run.
  rewrite resize_nil. unfold zlen at 1. rewrite Nat2Z.id.
  erewrite RegQueryValueEx_data;
    [ | exact Hopen | exact Hlook
      | cbn [entry_data]; lia
      | cbn [entry_data]; unfold zlen; rewrite length_replicate; lia ].
  cbn [Win32.q_status Win32.q_buffer entry_data Z.eqb ERROR_SUCCESS negb].
  unfold poke. rewrite drop_replicate, Nat.sub_diag. cbn [replicate].
  by rewrite app_nil_r.
Qed.

Lemma ReadValueDwordInternal_bytes (hKey : HKEY) (valueName : wstring) (type : Z)
    (x : Z) (w : World) :
  hKey ∈ open_keys w ->
  registry w !! (hKey, valueName) = Some (mkEntry type (dword_bytes x)) ->
  is_DWORD x ->
  ReadValueDwordInternal hKey valueName w =
    (Ok (dword_value x), logged (CallRegQueryValueEx hKey valueName true sizeof_DWORD) w).
Proof.
  intros Hopen Hlook Hx. unfold ReadValueDwordInternal. run.
  erewrite RegQueryValueEx_data;
    [ | exact Hopen | exact Hlook | done | done ].
  cbn [Win32.q_status Win32.q_buffer entry_data Z.eqb ERROR_SUCCESS negb].
  change (poke (dword_bytes 0) (dword_bytes x)) with (dword_bytes x).
  rewrite dword_roundtrip by done. done.
Qed.

(** ** What the writers hand to the store *)

Lemma SafeSizeToDwordCast_fits b sz :
  0 <= sz <= DWORD_MAX -> SafeSizeToDwordCast b sz = Ok sz.
Proof.
  intros H. unfold SafeSizeToDwordCast.
  rewrite to_DWORD_small by done.
  destruct b; [done |].
  destruct (sz >? DWORD_MAX) eqn:E; [| done].
  apply Z.gtb_lt in E. lia.
Qed.

Lemma wide_size_exact b (n : Z) :
  0 <= n -> (n + 1) * 2 <= SIZE_MAX b ->
  size_mul b (size_add b n 1) sizeof_wchar_t = (n + 1) * 2.
Proof.
  intros H0 H. unfold size_mul, size_add, sizeof_wchar_t.
  rewrite (to_size_t_small b (n + 1)) by lia.
  apply to_size_t_small. lia.
Qed.

Ltac finish_write Hopen :=
  cbn [obind]; run;
  rewrite RegSetValueEx_ok by (exact Hopen || (rewrite ?zlen_bytes_of_wchars, ?zlen_snoc; unfold wstring_storage; rewrite ?zlen_snoc; lia));
  cbn [Z.eqb ERROR_SUCCESS negb]; try done.

Lemma WriteValueDwordInternal_ok hKey valueName (x : Z) (w : World) :
  hKey ∈ open_keys w ->
  WriteValueDwordInternal hKey valueName (dword_value x) w =
    (Ok tt, stored hKey valueName REG_DWORD (dword_bytes x) w).
Proof.
  intros Hopen. unfold WriteValueDwordInternal. run.
  cbn [RegValue.Dword dword_value RegValue.m_typeId RegValue.m_dword REG_DWORD Z.eqb
       Pos.eqb negb].
  rewrite RegSetValueEx_ok by done. done.
Qed.

Lemma WriteValueStringInternal_ok b hKey valueName (str : wstring) (w : World) :
  hKey ∈ open_keys w ->
  (zlen str + 1) * 2 <= DWORD_MAX ->
  WriteValueStringInternal b hKey valueName (sz_value REG_SZ str) w =
    (Ok tt, stored hKey valueName REG_SZ (bytes_of_wchars (str ++ [0])) w).
Proof.
  intros Hopen Hfit. pose proof (zlen_nonneg str). pose proof (DWORD_MAX_le_SIZE_MAX b).
  unfold WriteValueStringInternal. run.
  change (RegValue.String (sz_value REG_SZ str)) with (Ok str). cbn beta iota.
  rewrite wide_size_exact, SafeSizeToDwordCast_fits by lia.
  finish_write Hopen.
Qed.

Lemma WriteValueExpandStringInternal_ok b hKey valueName (str : wstring) (w : World) :
  hKey ∈ open_keys w ->
  (zlen str + 1) * 2 <= DWORD_MAX ->
  WriteValueExpandStringInternal b hKey valueName (sz_value REG_EXPAND_SZ str) w =
    (Ok tt, stored hKey valueName REG_EXPAND_SZ (bytes_of_wchars (str ++ [0])) w).
Proof.
  intros Hopen Hfit. pose proof (zlen_nonneg str). pose proof (DWORD_MAX_le_SIZE_MAX b).
  unfold WriteValueExpandStringInternal. run.
  change (RegValue.ExpandString (sz_value REG_EXPAND_SZ str)) with (Ok str). cbn beta iota.
  rewrite wide_size_exact, SafeSizeToDwordCast_fits by lia.
  finish_write Hopen.
Qed.

Lemma WriteValueBinaryInternal_ok b hKey valueName (d : list Z) (w : World) :
  hKey ∈ open_keys w ->
  d <> [] ->
  zlen d <= DWORD_MAX ->
  WriteValueBinaryInternal b hKey valueName (binary_value d) w =
    (Ok tt, stored hKey valueName REG_BINARY d w).
Proof.
  intros Hopen Hne Hfit. pose proof (zlen_nonneg d).
  unfold WriteValueBinaryInternal. run.
  change (RegValue.Binary (binary_value d)) with (Ok d). cbn beta iota.
  rewrite SafeSizeToDwordCast_fits by lia.
  destruct d as [|x d]; [done |]. cbn [vector_front_addr].
  finish_write Hopen.
Qed.

Lemma multi_sz_buffer_framing b (l : list wstring) :
  zlen (terminated_strings l) + 1 <= SIZE_MAX b ->
  multi_sz_buffer b l = Ok (multi_sz_framing l).
Proof.
  intros Hfit. destruct l as [|s l].
  - apply multi_sz_buffer_empty.
  - by apply multi_sz_buffer_nonempty.
Qed.

Lemma zlen_multi_sz_framing (l : list wstring) :
  zlen (multi_sz_framing l) <= zlen (terminated_strings l) + 2.
Proof.
  destruct l; [done |]. unfold multi_sz_framing. rewrite zlen_snoc. lia.
Qed.

Lemma WriteValueMultiStringInternal_ok b hKey valueName (l : list wstring) (w : World) :
  hKey ∈ open_keys w ->
  (zlen (terminated_strings l) + 2) * 2 <= DWORD_MAX ->
  WriteValueMultiStringInternal b hKey valueName (multi_sz_value l) w =
    (Ok tt, stored hKey valueName REG_MULTI_SZ (bytes_of_wchars (multi_sz_framing l)) w).
Proof.
  intros Hopen Hfit. pose proof (zlen_nonneg (terminated_strings l)).
  pose proof (DWORD_MAX_le_SIZE_MAX b). pose proof (zlen_multi_sz_framing l).
  pose proof (zlen_nonneg (multi_sz_framing l)).
  unfold WriteValueMultiStringInternal. run.
  change (RegValue.MultiString (multi_sz_value l)) with (Ok l). cbn beta iota.
  rewrite multi_sz_buffer_framing by lia.
  unfold size_mul, sizeof_wchar_t. rewrite to_size_t_small by lia.
  rewrite SafeSizeToDwordCast_fits by lia.
  finish_write Hopen.
Qed.

(** ** Write, then read back *)

Lemma QueryValue_dispatch (hKey : HKEY) (valueName : wstring) (e : RegEntry) (w : World) :
  hKey ∈ open_keys w ->
  registry w !! (hKey, valueName) = Some e ->
  QueryValue hKey valueName w =
    read_dispatch hKey valueName e (logged (CallRegQueryValueEx hKey valueName false 0) w).
Proof.
  intros Hopen Hlook. unfold QueryValue. run.
  rewrite (RegQueryValueEx_info _ _ _ e) by done.
  cbn [Win32.q_status Win32.q_type Win32.q_size Z.eqb ERROR_SUCCESS negb].
  done.
Qed.

Lemma write_then_read_stored b hKey valueName value type data (w : World) :
  hKey ∈ open_keys w ->
  SetValue b hKey valueName value w = (Ok tt, stored hKey valueName type data w) ->
  write_then_read b hKey valueName value w =
    fst (read_dispatch hKey valueName (mkEntry type data)
           (logged (CallRegQueryValueEx hKey valueName false 0)
                   (stored hKey valueName type data w))).
Proof.
  intros Hopen Hset. unfold write_then_read, bind. rewrite Hset.
  by rewrite (QueryValue_dispatch _ _ (mkEntry type data)) by (done || apply stored_lookup).
Qed.

Lemma roundtrip_dword b hKey valueName (x : Z) (w : World) :
  hKey ∈ open_keys w -> is_DWORD x ->
  write_then_read b hKey valueName (dword_value x) w = Ok (dword_value x).
Proof.
  intros Hopen Hx.
  rewrite (write_then_read_stored _ _ _ _ REG_DWORD (dword_bytes x))
    by (done || by apply WriteValueDwordInternal_ok).
  change (read_dispatch hKey valueName (mkEntry REG_DWORD (dword_bytes x)))
    with (ReadValueDwordInternal hKey valueName).
  by rewrite (ReadValueDwordInternal_bytes _ _ REG_DWORD x) by (done || apply stored_lookup).
Qed.

Lemma roundtrip_sz b hKey valueName (str : wstring) (w : World) :
  hKey ∈ open_keys w -> Forall is_wchar str -> (zlen str + 1) * 2 <= DWORD_MAX ->
  write_then_read b hKey valueName (sz_value REG_SZ str) w = Ok (sz_value REG_SZ str).
Proof.
  intros Hopen Hstr Hfit.
  assert (Hu : Forall is_wchar (str ++ [0]))
    by (apply Forall_app; split; [done | repeat constructor; done]).
  rewrite (write_then_read_stored _ _ _ _ REG_SZ (bytes_of_wchars (str ++ [0])))
    by (done || by apply WriteValueStringInternal_ok).
  unfold read_dispatch. cbn [entry_type entry_data REG_SZ Z.eqb Pos.eqb REG_BINARY REG_DWORD].
  rewrite zlen_bytes_of_wchars.
  rewrite (ReadValueStringInternal_units _ _ 1 (str ++ [0]))
    by (done || apply stored_lookup || (rewrite zlen_snoc; lia)).
  rewrite strip_terminator_terminated by (pose proof (zlen_nonneg str); lia). done.
Qed.

Lemma roundtrip_expand_sz b hKey valueName (str : wstring) (w : World) :
  hKey ∈ open_keys w -> Forall is_wchar str -> (zlen str + 1) * 2 <= DWORD_MAX ->
  write_then_read b hKey valueName (sz_value REG_EXPAND_SZ str) w
  = Ok (sz_value REG_EXPAND_SZ str).
Proof.
  intros Hopen Hstr Hfit.
  assert (Hu : Forall is_wchar (str ++ [0]))
    by (apply Forall_app; split; [done | repeat constructor; done]).
  rewrite (write_then_read_stored _ _ _ _ REG_EXPAND_SZ (bytes_of_wchars (str ++ [0])))
    by (done || by apply WriteValueExpandStringInternal_ok).
  unfold read_dispatch.
  cbn [entry_type entry_data REG_SZ REG_EXPAND_SZ Z.eqb Pos.eqb REG_BINARY REG_DWORD].
  rewrite zlen_bytes_of_wchars.
  rewrite (ReadValueExpandStringInternal_units _ _ 2 (str ++ [0]))
    by (done || apply stored_lookup || (rewrite zlen_snoc; lia)).
  rewrite strip_terminator_terminated by (pose proof (zlen_nonneg str); lia). done.
Qed.

Lemma roundtrip_binary b hKey valueName (d : list Z) (w : World) :
  hKey ∈ open_keys w -> d <> [] -> zlen d <= DWORD_MAX ->
  write_then_read b hKey valueName (binary_value d) w = Ok (binary_value d).
Proof.
  intros Hopen Hne Hfit.
  rewrite (write_then_read_stored _ _ _ _ REG_BINARY d)
    by (done || by apply WriteValueBinaryInternal_ok).
  unfold read_dispatch. cbn [entry_type entry_data REG_BINARY Z.eqb Pos.eqb].
  by rewrite (ReadValueBinaryInternal_bytes _ _ 3 d) by (done || apply stored_lookup).
Qed.

Lemma length_terminated_strings (l : list wstring) :
  (length l <= length (terminated_strings l))%nat.
Proof.
  induction l as [|s l IH]; [done |].
  cbn [terminated_strings flat_map length].
  change (flat_map wstring_storage l) with (terminated_strings l).
  unfold wstring_storage. rewrite !length_app. simpl length. lia.
Qed.

Lemma is_wchar_terminated_strings (l : list wstring) :
  Forall (Forall is_wchar) l -> Forall is_wchar (terminated_strings l).
Proof.
  induction 1 as [|s l Hs _ IH]; [constructor |].
  cbn [terminated_strings flat_map].
  apply Forall_app; split; [| exact IH].
  apply Forall_app; split; [done | repeat constructor; done].
Qed.

Lemma is_wchar_multi_sz_framing (l : list wstring) :
  Forall (Forall is_wchar) l -> Forall is_wchar (multi_sz_framing l).
Proof.
  intros Hl. destruct l as [|s l]; [repeat constructor; done |].
  apply Forall_app; split; [by apply is_wchar_terminated_strings | repeat constructor; done].
Qed.

Lemma multi_sz_scan_framing (l : list wstring) :
  Forall (fun s => s <> [] /\ nul_free s) l ->
  multi_sz_scan
    (S (length (multi_sz_framing l ++ replicate (length (multi_sz_framing l)) 0)))
    (multi_sz_framing l ++ replicate (length (multi_sz_framing l)) 0) 0 []
  = Ok l.
Proof.
  intros Hl. destruct l as [|s l]; [reflexivity |].
  unfold multi_sz_framing. rewrite <- app_assoc.
  pose proof (multi_sz_scan_strings (s :: l)
                (S (length (terminated_strings (s :: l) ++
                            [0] ++ replicate (length (terminated_strings (s :: l) ++ [0])) 0)))
                [] (replicate (length (terminated_strings (s :: l) ++ [0])) 0) [] Hl) as H.
  cbn [app length] in H. apply H.
  pose proof (length_terminated_strings (s :: l)) as Hlen.
  rewrite length_app. cbn [length] in *. lia.
Qed.

Lemma roundtrip_multi_sz b hKey valueName (l : list wstring) (w : World) :
  hKey ∈ open_keys w ->
  Forall (Forall is_wchar) l ->
  Forall (fun s => s <> [] /\ nul_free s) l ->
  (zlen (terminated_strings l) + 2) * 2 <= DWORD_MAX ->
  write_then_read b hKey valueName (multi_sz_value l) w = Ok (multi_sz_value l).
Proof.
  intros Hopen Hw Hl Hfit.
  rewrite (write_then_read_stored _ _ _ _ REG_MULTI_SZ (bytes_of_wchars (multi_sz_framing l)))
    by (done || by apply WriteValueMultiStringInternal_ok).
  unfold read_dispatch.
  cbn [entry_type entry_data REG_SZ REG_EXPAND_SZ REG_MULTI_SZ Z.eqb Pos.eqb REG_BINARY
       REG_DWORD].
  rewrite zlen_bytes_of_wchars.
  rewrite (ReadValueMultiStringInternal_units _ _ 7 (multi_sz_framing l))
    by (done || apply stored_lookup || by apply is_wchar_multi_sz_framing).
  by rewrite multi_sz_scan_framing.
Qed.

(** ** The typed accessors of RegValue *)

Lemma eqb_negb_neq (x y : Z) : x <> y -> negb (x =? y) = true.
Proof. intros H. by rewrite (proj2 (Z.eqb_neq x y)). Qed.

Lemma eqb_negb_eq (x y : Z) : x = y -> negb (x =? y) = false.
Proof. intros ->. by rewrite Z.eqb_refl. Qed.

(** C6. A typed accessor called on a value of another kind throws
    [std::invalid_argument] and returns no payload; called on a value of its
    own kind it returns the payload slot of that kind: the const form the
    content of the slot, the non-const form a reference [r] to the slot.
    Whatever state [u] the object is in when [r] is used, reading through
    [r] gives the content of that slot of [u], and assigning [x] through [r]
    puts [x] in that slot and leaves the kind and the four other slots of
    [u] as they are. *)
Theorem typed_accessors (v : RegValue.t) :
  (RegValue.GetType v <> REG_DWORD ->
     RegValue.Dword v
       = Throw (TypeMismatch "RegValue::Dword() called on a non-DWORD registry value.") /\
     RegValue.Dword_mut v
       = Throw (TypeMismatch "RegValue::Dword() called on a non-DWORD registry value.")) /\
  (RegValue.GetType v <> REG_SZ ->
     RegValue.String v
       = Throw (TypeMismatch "RegValue::String() called on a non-REG_SZ registry value.") /\
     RegValue.String_mut v
       = Throw (TypeMismatch "RegValue::String() called on a non-REG_SZ registry value.")) /\
  (RegValue.GetType v <> REG_EXPAND_SZ ->
     RegValue.ExpandString v
       = Throw (TypeMismatch
                  "RegValue::ExpandString() called on a non-REG_EXPAND_SZ registry value.") /\
     RegValue.ExpandString_mut v
       = Throw (TypeMismatch
                  "RegValue::ExpandString() called on a non-REG_EXPAND_SZ registry value.")) /\
  (RegValue.GetType v <> REG_MULTI_SZ ->
     RegValue.MultiString v
       = Throw (TypeMismatch
                  "RegValue::MultiString() called on a non-REG_MULTI_SZ registry value.") /\
     RegValue.MultiString_mut v
       = Throw (TypeMismatch
                  "RegValue::MultiString() called on a non-REG_MULTI_SZ registry value.")) /\
  (RegValue.GetType v <> REG_BINARY ->
     RegValue.Binary v
       = Throw (TypeMismatch "RegValue::Binary() called on a non-REG_BINARY registry value.") /\
     RegValue.Binary_mut v
       = Throw (TypeMismatch "RegValue::Binary() called on a non-REG_BINARY registry value.")) /\
  (RegValue.GetType v = REG_DWORD ->
     RegValue.Dword v = Ok (RegValue.m_dword v) /\
     exists r, RegValue.Dword_mut v = Ok r /\
       (forall u, RegValue.deref r u = RegValue.m_dword u) /\
       (forall x u, RegValue.assign r x u =
          RegValue.mk (RegValue.m_typeId u) x (RegValue.m_string u)
            (RegValue.m_expandString u) (RegValue.m_multiString u) (RegValue.m_binary u))) /\
  (RegValue.GetType v = REG_SZ ->
     RegValue.String v = Ok (RegValue.m_string v) /\
     exists r, RegValue.String_mut v = Ok r /\
       (forall u, RegValue.deref r u = RegValue.m_string u) /\
       (forall x u, RegValue.assign r x u =
          RegValue.mk (RegValue.m_typeId u) (RegValue.m_dword u) x
            (RegValue.m_expandString u) (RegValue.m_multiString u) (RegValue.m_binary u))) /\
  (RegValue.GetType v = REG_EXPAND_SZ ->
     RegValue.ExpandString v = Ok (RegValue.m_expandString v) /\
     exists r, RegValue.ExpandString_mut v = Ok r /\
       (forall u, RegValue.deref r u = RegValue.m_expandString u) /\
       (forall x u, RegValue.assign r x u =
          RegValue.mk (RegValue.m_typeId u) (RegValue.m_dword u) (RegValue.m_string u)
            x (RegValue.m_multiString u) (RegValue.m_binary u))) /\
  (RegValue.GetType v = REG_MULTI_SZ ->
     RegValue.MultiString v = Ok (RegValue.m_multiString v) /\
     exists r, RegValue.MultiString_mut v = Ok r /\
       (forall u, RegValue.deref r u = RegValue.m_multiString u) /\
       (forall x u, RegValue.assign r x u =
          RegValue.mk (RegValue.m_typeId u) (RegValue.m_dword u) (RegValue.m_string u)
            (RegValue.m_expandString u) x (RegValue.m_binary u))) /\
  (RegValue.GetType v = REG_BINARY ->
     RegValue.Binary v = Ok (RegValue.m_binary v) /\
     exists r, RegValue.Binary_mut v = Ok r /\
       (forall u, RegValue.deref r u = RegValue.m_binary u) /\
       (forall x u, RegValue.assign r x u =
          RegValue.mk (RegValue.m_typeId u) (RegValue.m_dword u) (RegValue.m_string u)
            (RegValue.m_expandString u) (RegValue.m_multiString u) x)).
Proof.
  unfold RegValue.GetType, RegValue.Dword, RegValue.Dword_mut, RegValue.String,
    RegValue.String_mut, RegValue.ExpandString, RegValue.ExpandString_mut,
    RegValue.MultiString, RegValue.MultiString_mut, RegValue.Binary, RegValue.Binary_mut,
    TypeMismatch.
  repeat match goal with
         | |- _ /\ _ => split
         | |- _ -> _ => intro
         end;
    match goal with
    | H : _ <> _ |- _ => rewrite (eqb_negb_neq _ _ H)
    | H : _ = _ |- _ => rewrite (eqb_negb_eq _ _ H)
    end;
    first [ reflexivity
          | eexists; split; [reflexivity | split; intros; reflexivity] ].
Qed.

Lemma typed_accessors_witness :
  RegValue.Dword (RegValue.ctor REG_SZ)
    = Throw (TypeMismatch "RegValue::Dword() called on a non-DWORD registry value.") /\
  RegValue.String (sz_value REG_SZ [72; 105]) = Ok [72; 105] /\
  exists r, RegValue.String_mut (sz_value REG_SZ [72; 105]) = Ok r /\
            forall u, RegValue.deref r u = RegValue.m_string u.
Proof.
  split; [| split].
  - apply (typed_accessors (RegValue.ctor REG_SZ)). vm_compute. discriminate.
  - apply (typed_accessors (sz_value REG_SZ [72; 105])). reflexivity.
  - destruct (typed_accessors (sz_value REG_SZ [72; 105])) as (_ & _ & _ & _ & _ & _ & H & _).
    destruct (H eq_refl) as (_ & r & Hr & Hd & _).
    exists r. split; [exact Hr | exact Hd].
Defined.

(** The slot a reference names is the one its accessor guards: reading
    through it gives the slot, assigning through it changes that slot and
    keeps the kind. *)
Lemma ref_slots (v : RegValue.t) (x : Z) (s : wstring) (l : list wstring) (d : list Z) :
  RegValue.deref RegValue.ref_m_dword (RegValue.assign RegValue.ref_m_dword x v) = x /\
  RegValue.deref RegValue.ref_m_string (RegValue.assign RegValue.ref_m_string s v) = s /\
  RegValue.deref RegValue.ref_m_expandString
    (RegValue.assign RegValue.ref_m_expandString s v) = s /\
  RegValue.deref RegValue.ref_m_multiString
    (RegValue.assign RegValue.ref_m_multiString l v) = l /\
  RegValue.deref RegValue.ref_m_binary (RegValue.assign RegValue.ref_m_binary d v) = d /\
  RegValue.GetType (RegValue.assign RegValue.ref_m_dword x v) = RegValue.GetType v.
Proof. repeat split. Qed.

(** ** The size cast *)

Lemma SafeSizeToDwordCast_too_long b sz :
  DWORD_MAX < sz <= SIZE_MAX b -> SafeSizeToDwordCast b sz = Throw Overflow.
Proof.
  intros [Hlo Hhi]. destruct b.
  - unfold SIZE_MAX, DWORD_MAX in *. lia.
  - unfold SafeSizeToDwordCast. by rewrite (proj2 (Z.gtb_lt sz DWORD_MAX)) by lia.
Qed.

Lemma zlen_multi_sz_framing_exact (l : list wstring) :
  l <> [] -> zlen (multi_sz_framing l) = zlen (terminated_strings l) + 1.
Proof. destruct l; [done |]. intros _. unfold multi_sz_framing. apply zlen_snoc. Qed.

Lemma SetValue_overflow b hKey valueName (value : RegValue.t) (w : World) :
  DWORD_MAX < payload_bytes value <= SIZE_MAX b ->
  SetValue b hKey valueName value w = (Throw Overflow, w).
Proof.
  unfold payload_bytes, SetValue, RegValue.GetType, sizeof_wchar_t.
  intros Hsz.
  destruct (Z.eqb_spec (RegValue.m_typeId value) REG_BINARY) as [E|_].
  { unfold WriteValueBinaryInternal, RegValue.Binary. run.
    rewrite (eqb_negb_eq _ _ E). cbn beta iota.
    by rewrite SafeSizeToDwordCast_too_long. }
  destruct (Z.eqb_spec (RegValue.m_typeId value) REG_DWORD) as [E|_].
  { unfold sizeof_DWORD, DWORD_MAX in Hsz. lia. }
  destruct (Z.eqb_spec (RegValue.m_typeId value) REG_SZ) as [E|_].
  { unfold WriteValueStringInternal, RegValue.String. run.
    rewrite (eqb_negb_eq _ _ E). cbn beta iota.
    pose proof (zlen_nonneg (RegValue.m_string value)).
    rewrite wide_size_exact by lia.
    by rewrite SafeSizeToDwordCast_too_long. }
  destruct (Z.eqb_spec (RegValue.m_typeId value) REG_EXPAND_SZ) as [E|_].
  { unfold WriteValueExpandStringInternal, RegValue.ExpandString. run.
    rewrite (eqb_negb_eq _ _ E). cbn beta iota.
    pose proof (zlen_nonneg (RegValue.m_expandString value)).
    rewrite wide_size_exact by lia.
    by rewrite SafeSizeToDwordCast_too_long. }
  destruct (Z.eqb_spec (RegValue.m_typeId value) REG_MULTI_SZ) as [E|_].
  { unfold WriteValueMultiStringInternal, RegValue.MultiString. run.
    rewrite (eqb_negb_eq _ _ E). cbn beta iota.
    destruct (decide (RegValue.m_multiString value = [])) as [Hnil|Hne].
    { rewrite Hnil in Hsz. change (zlen (multi_sz_framing [])) with 2 in Hsz.
      unfold DWORD_MAX in Hsz. lia. }
    pose proof (zlen_multi_sz_framing_exact _ Hne) as Hlen.
    pose proof (zlen_nonneg (terminated_strings (RegValue.m_multiString value))).
    rewrite multi_sz_buffer_framing by lia. cbn beta iota.
    unfold size_mul, sizeof_wchar_t. rewrite to_size_t_small by lia.
    by rewrite SafeSizeToDwordCast_too_long. }
  unfold DWORD_MAX in Hsz. lia.
Qed.

(** C7. A byte length that does not fit the 32-bit length field makes the
    cast, and with it the write of the value, fail with [std::overflow_error]
    before anything reaches the store; a byte length that fits is returned
    unchanged.  [sz] ranges over the values a [size_t] of the build holds. *)
Theorem overflow_is_reported (b : Build) (sz : Z) :
  0 <= sz <= SIZE_MAX b ->
  (DWORD_MAX < sz -> SafeSizeToDwordCast b sz = Throw Overflow) /\
  (sz <= DWORD_MAX -> SafeSizeToDwordCast b sz = Ok sz) /\
  (forall hKey valueName value w,
     payload_bytes value = sz -> DWORD_MAX < sz ->
     SetValue b hKey valueName value w = (Throw Overflow, w)).
Proof.
  intros Hsz. repeat split.
  - intros H. apply SafeSizeToDwordCast_too_long. lia.
  - intros H. apply SafeSizeToDwordCast_fits. lia.
  - intros hKey valueName value w Hp H. apply SetValue_overflow. lia.
Qed.

Lemma overflow_is_reported_witness :
  SafeSizeToDwordCast Build64 4294967296 = Throw Overflow /\
  SafeSizeToDwordCast Build64 4294967295 = Ok 4294967295 /\
  SafeSizeToDwordCast Build32 24 = Ok 24.
Proof.
  split; [| split].
  - apply (overflow_is_reported Build64 4294967296); unfold SIZE_MAX, DWORD_MAX; lia.
  - apply (overflow_is_reported Build64 4294967295); unfold SIZE_MAX, DWORD_MAX; lia.
  - apply (overflow_is_reported Build32 24); unfold SIZE_MAX, DWORD_MAX; lia.
Defined.

(** ** Dispatch on the value kind *)

(** C9. For a kind outside the five supported ones, [QueryValue] (on the kind
    the store reports) and [SetValue] (on the kind of the value) throw the
    unsupported-kind error.  The read has made its one size-and-kind query,
    without a data buffer, and nothing else; the write has made no call at
    all: the world is the one it started from. *)
Theorem unsupported_kind_rejected (b : Build) (hKey : HKEY) (valueName : wstring) (type : Z) :
  ~ supported_kind type ->
  (forall data w,
     hKey ∈ open_keys w ->
     registry w !! (hKey, valueName) = Some (mkEntry type data) ->
     QueryValue hKey valueName w =
       (Throw UnsupportedValueKind, logged (CallRegQueryValueEx hKey valueName false 0) w)) /\
  (forall value w,
     RegValue.GetType value = type ->
     SetValue b hKey valueName value w = (Throw UnsupportedValueKind, w)).
Proof.
  unfold supported_kind. intros Hun.
  assert (Hne : type <> REG_BINARY /\ type <> REG_DWORD /\ type <> REG_SZ /\
                type <> REG_EXPAND_SZ /\ type <> REG_MULTI_SZ) by tauto.
  destruct Hne as (H1 & H2 & H3 & H4 & H5).
  split.
  - intros data w Hopen Hlook.
    rewrite (QueryValue_dispatch _ _ _ _ Hopen Hlook).
    unfold read_dispatch. cbn [entry_type].
    rewrite (proj2 (Z.eqb_neq _ _) H1), (proj2 (Z.eqb_neq _ _) H2),
      (proj2 (Z.eqb_neq _ _) H3), (proj2 (Z.eqb_neq _ _) H4), (proj2 (Z.eqb_neq _ _) H5).
    reflexivity.
  - intros value w <-. unfold SetValue.
    rewrite (proj2 (Z.eqb_neq _ _) H1), (proj2 (Z.eqb_neq _ _) H2),
      (proj2 (Z.eqb_neq _ _) H3), (proj2 (Z.eqb_neq _ _) H4), (proj2 (Z.eqb_neq _ _) H5).
    reflexivity.
Qed.

Lemma unsupported_kind_rejected_witness :
  QueryValue hKey0 [81] world_qword =
    (Throw UnsupportedValueKind, logged (CallRegQueryValueEx hKey0 [81] false 0) world_qword) /\
  SetValue Build64 hKey0 [81] RegValue.default_ctor world_qword =
    (Throw UnsupportedValueKind, world_qword).
Proof.
  split.
  - apply (unsupported_kind_rejected Build64 hKey0 [81] 11) with (data := [1; 2; 3; 4; 5; 6; 7; 8]).
    + vm_compute. intuition discriminate.
    + vm_compute. reflexivity.
    + vm_compute. reflexivity.
  - apply (unsupported_kind_rejected Build64 hKey0 [81] REG_NONE).
    + vm_compute. intuition discriminate.
    + reflexivity.
Defined.

(** ** ExpandEnvironmentStrings *)

(** C10. [ExpandEnvironmentStrings] always returns a string.  When the native
    call reports failure (returns 0) at the sizing step or at the filling
    step the result is the empty string; when the filling call has written
    the expansion [e] and its terminator and returned their length, the result
    is [e]. *)
Theorem ExpandEnvironmentStrings_never_throws (Env : Type)
    (native : Env -> wstring -> option (list Z) -> Z -> Env * list Z * Z)
    (source : wstring) (env : Env) :
  let sizing := native env source None 0 in
  let requiredLen := sizing.2 in
  let filling :=
    native sizing.1.1 source (Some (wstring_storage (resize requiredLen []))) requiredLen in
  let result := (ExpandEnvironmentStrings Env native source env).1 in
  (exists str, result = Ok str) /\
  (requiredLen = 0 -> result = Ok []) /\
  (filling.2 = 0 -> result = Ok []) /\
  (forall e rest,
     requiredLen <> 0 ->
     0 <= requiredLen ->
     filling.1.2 = e ++ 0 :: rest ->
     filling.2 = zlen e + 1 ->
     zlen e + 1 <= requiredLen ->
     zlen e <= DWORD_MAX ->
     result = Ok e).
Proof.
  unfold ExpandEnvironmentStrings.
  destruct (native env source None 0) as [[env1 dst1] requiredLen] eqn:Hsizing.
  cbn [fst snd].
  destruct (Z.eqb_spec requiredLen 0) as [Hreq|Hreq].
  { cbn zeta. repeat split; eauto. intros; done. }
  destruct (native env1 source (Some (wstring_storage (resize requiredLen []))) requiredLen)
    as [[env2 dst] len] eqn:Hfilling.
  cbn [fst snd]. cbn zeta.
  destruct (Z.eqb_spec len 0) as [Hlen|Hlen].
  { repeat split; eauto. intros e rest _ _ _ Hl. pose proof (zlen_nonneg e). lia. }
  split; [eauto |]. split; [done |]. split; [done |].
  intros e rest _ Hpos -> -> Hfit Hmax.
  pose proof (zlen_nonneg e) as He.
  replace (zlen e + 1 - 1) with (zlen e) by lia.
  rewrite to_DWORD_small by lia.
  cbn [fst]. f_equal. rewrite resize_nil, length_replicate.
  unfold resize, zlen in *. rewrite Nat2Z.id.
  rewrite take_take.
  replace (length e `min` Z.to_nat requiredLen)%nat with (length e) by lia.
  rewrite take_app_length.
  rewrite length_take, length_app. cbn [length].
  replace (length e - _)%nat with 0%nat by lia.
  apply app_nil_r.
Qed.

Lemma ExpandEnvironmentStrings_never_throws_witness :
  (ExpandEnvironmentStrings unit native_W [37; 87; 37] tt).1 = Ok [87].
Proof.
  pose proof (ExpandEnvironmentStrings_never_throws unit native_W [37; 87; 37] tt) as H.
  cbv zeta in H. destruct H as (_ & _ & _ & H).
  apply (H [87] [0]); vm_compute; congruence.
Defined.

(** ** RegKey: moves and Close *)

Lemma Close_invalid (this : nat) (w : World) :
  heap w !! this = Some nullptr -> RegKey.Close this w = (Ok tt, w).
Proof.
  intros Hnull. destruct w as [reg opened hp log]. cbn [heap] in Hnull.
  unfold RegKey.Close, RegKey.m_hKey, RegKey.set_m_hKey. run.
  cbn [heap]. rewrite Hnull. cbn. by rewrite insert_id.
Qed.

Lemma Close_nulls (this : nat) (w : World) :
  heap (RegKey.Close this w).2 !! this = Some nullptr.
Proof.
  unfold RegKey.Close, RegKey.m_hKey, RegKey.set_m_hKey, Win32.RegCloseKey. run.
  destruct (negb (default nullptr (heap w !! this) =? nullptr)).
  - cbn [logged open_keys].
    destruct (bool_decide (default nullptr (heap w !! this) ∈ open_keys w));
      cbn [snd heap]; apply lookup_insert_eq.
  - cbn [snd heap]. apply lookup_insert_eq.
Qed.

Lemma IsValid_lookup (this : nat) (h : HKEY) (w : World) :
  heap w !! this = Some h -> RegKey.IsValid this w = (Ok (negb (h =? nullptr)), w).
Proof.
  intros Hh. unfold RegKey.IsValid, RegKey.m_hKey. run. by rewrite Hh.
Qed.

Lemma move_ctor_source (this other : nat) (w : World) :
  heap (RegKey.move_ctor this other w).2 !! other = Some nullptr.
Proof.
  unfold RegKey.move_ctor, RegKey.m_hKey, RegKey.set_m_hKey. run.
  cbn [snd heap]. apply lookup_insert_eq.
Qed.

Lemma move_assign_source (this other : nat) (w : World) :
  other <> this ->
  heap (RegKey.move_assign this other w).2 !! other = Some nullptr.
Proof.
  intros Hne. unfold RegKey.move_assign. rewrite decide_True by done.
  unfold RegKey.m_hKey, RegKey.set_m_hKey. run.
  destruct (RegKey.Close this w) as [[[]| | |] w1] eqn:HClose.
  - cbn [snd heap]. apply lookup_insert_eq.
  - exfalso. revert HClose.
    unfold RegKey.Close, RegKey.m_hKey, RegKey.set_m_hKey, Win32.RegCloseKey. run.
    repeat (case_match; try done).
  - exfalso. revert HClose.
    unfold RegKey.Close, RegKey.m_hKey, RegKey.set_m_hKey, Win32.RegCloseKey. run.
    repeat (case_match; try done).
  - exfalso. revert HClose.
    unfold RegKey.Close, RegKey.m_hKey, RegKey.set_m_hKey, Win32.RegCloseKey. run.
    repeat (case_match; try done).
Qed.

Lemma move_assign_self (this : nat) (w : World) :
  RegKey.move_assign this this w = (Ok tt, w).
Proof. unfold RegKey.move_assign. by rewrite decide_False by (intros H; apply H; done). Qed.

(** C8, as the code has it.  After a move construction, and after a move
    assignment from another object, the source reports itself invalid and
    closing it changes nothing and calls nothing; a move assignment of an
    object to itself is guarded out and leaves the world as it was; and a
    second [Close] on any handle changes nothing and calls nothing. *)
Theorem handle_ownership (this other : nat) (w : World) :
  (let w' := (RegKey.move_ctor this other w).2 in
   RegKey.IsValid other w' = (Ok false, w') /\ RegKey.Close other w' = (Ok tt, w')) /\
  (other <> this ->
   let w' := (RegKey.move_assign this other w).2 in
   RegKey.IsValid other w' = (Ok false, w') /\ RegKey.Close other w' = (Ok tt, w')) /\
  RegKey.move_assign this this w = (Ok tt, w) /\
  (let w1 := (RegKey.Close this w).2 in
   RegKey.Close this w1 = (Ok tt, w1)).
Proof.
  split; [| split; [| split]].
  - pose proof (move_ctor_source this other w) as H. cbv zeta. split.
    + by rewrite (IsValid_lookup _ nullptr).
    + by apply Close_invalid.
  - intros Hne. pose proof (move_assign_source this other w Hne) as H. cbv zeta. split.
    + by rewrite (IsValid_lookup _ nullptr).
    + by apply Close_invalid.
  - apply move_assign_self.
  - cbv zeta. apply Close_invalid, Close_nulls.
Qed.

Lemma handle_ownership_witness :
  let w' := (RegKey.move_assign 8 7 world_keys).2 in
  RegKey.IsValid 7 w' = (Ok false, w') /\ RegKey.Close 7 w' = (Ok tt, w').
Proof.
  apply (handle_ownership 8 7 world_keys). lia.
Defined.

(** C8 as stated fails on a self-move: [k = std::move(k)] is a move
    assignment whose source still owns its handle afterwards. *)
Lemma self_move_keeps_handle :
  (bind (RegKey.move_assign 7 7) (fun _ => RegKey.IsValid 7) world_keys).1 = Ok true.
Proof. vm_compute. reflexivity. Qed.

(** ** Reading text of length zero *)

(** C3 at the failing input.  For a REG_SZ or REG_EXPAND_SZ entry whose data
    has length zero, the reader evaluates [str[stringBufferLenInWchars - 1]]
    with the index wrapped to 4294967295 on a string of size 0. *)
Theorem text_decode_zero_length (hKey : HKEY) (valueName : wstring) (type : Z) (w : World) :
  type = REG_SZ \/ type = REG_EXPAND_SZ ->
  hKey ∈ open_keys w ->
  registry w !! (hKey, valueName) = Some (mkEntry type []) ->
  (QueryValue hKey valueName w).1 = Undefined (subscript_out_of_range 4294967295 0).
Proof.
  intros Hty Hopen Hlook.
  rewrite (QueryValue_dispatch _ _ _ _ Hopen Hlook).
  unfold read_dispatch. cbn [entry_type entry_data].
  change (zlen (@nil Z)) with (2 * zlen (@nil Z)).
  destruct Hty as [-> | ->].
  - cbn [Z.eqb Pos.eqb REG_SZ REG_BINARY REG_DWORD].
    by rewrite (ReadValueStringInternal_units _ _ 1 []).
  - cbn [Z.eqb Pos.eqb REG_SZ REG_EXPAND_SZ REG_BINARY REG_DWORD].
    by rewrite (ReadValueExpandStringInternal_units _ _ 2 []).
Qed.

Lemma text_decode_zero_length_witness :
  (QueryValue hKey0 [86] world_empty_sz).1 = Undefined (subscript_out_of_range 4294967295 0).
Proof.
  apply (text_decode_zero_length hKey0 [86] REG_SZ world_empty_sz).
  - left. reflexivity.
  - vm_compute. reflexivity.
  - vm_compute. reflexivity.
Defined.

(** ** Where the text reader is within bounds *)

Lemma length_wchars_of_bytes (l : list Z) :
  length (wchars_of_bytes l) = Nat.div2 (length l).
Proof.
  enough (H : length (wchars_of_bytes l) = Nat.div2 (length l) /\
              forall a, length (wchars_of_bytes (a :: l)) = Nat.div2 (length (a :: l)))
    by apply H.
  induction l as [|x l [IH1 IH2]]; [done |].
  split; [apply IH2 |].
  intros a. cbn [wchars_of_bytes length Nat.div2]. by rewrite IH1.
Qed.



(** A text entry of one byte is read like one of none. *)
Remark text_decode_one_byte :
  (QueryValue hKey0 [86] (mkWorld {[ (hKey0, [86]) := mkEntry REG_SZ [65] ]} {[hKey0]} ∅ [])).1
  = Undefined (subscript_out_of_range 4294967295 0).
Proof. vm_compute. reflexivity. Qed.

(** ** Reading a string list from an empty buffer *)

(** C4 at the failing input, and its second half.  With a REG_MULTI_SZ entry
    of length zero the reader's buffer has no element and the loop test
    [*pszz] reads at offset 0 of it; with an entry of two zero units the
    result is the empty list. *)
Theorem multi_sz_decode_empty (hKey : HKEY) (valueName : wstring) (data : list Z) (w : World) :
  hKey ∈ open_keys w ->
  registry w !! (hKey, valueName) = Some (mkEntry REG_MULTI_SZ data) ->
  (data = [] -> (QueryValue hKey valueName w).1 = Undefined (read_out_of_bounds 0 0)) /\
  (data = bytes_of_wchars [0; 0] -> (QueryValue hKey valueName w).1 = Ok (multi_sz_value [])).
Proof.
  intros Hopen Hlook.
  rewrite (QueryValue_dispatch _ _ _ _ Hopen Hlook).
  unfold read_dispatch.
  cbn [entry_type entry_data Z.eqb Pos.eqb REG_SZ REG_EXPAND_SZ REG_MULTI_SZ REG_BINARY
       REG_DWORD].
  split; intros ->.
  - change (zlen (@nil Z)) with (2 * zlen (@nil Z)).
    by rewrite (ReadValueMultiStringInternal_units _ _ 7 []).
  - rewrite zlen_bytes_of_wchars.
    by rewrite (ReadValueMultiStringInternal_units _ _ 7 [0; 0])
      by (done || (repeat constructor; done)).
Qed.

Lemma multi_sz_decode_empty_witness :
  (QueryValue hKey0 [77] world_empty_multi_sz).1 = Undefined (read_out_of_bounds 0 0).
Proof.
  apply (multi_sz_decode_empty hKey0 [77] [] world_empty_multi_sz).
  - vm_compute. reflexivity.
  - vm_compute. reflexivity.
  - reflexivity.
Defined.

(** ** The two terminator forms of a text value *)

Lemma strip_terminator_last (s : wstring) :
  s <> [] -> last s <> Some 0 -> zlen s <= DWORD_MAX ->
  strip_terminator (zlen s) s = Ok s.
Proof.
  intros Hne Hlast Hfit. destruct s as [|c s _] using rev_ind; [done |].
  rewrite last_snoc in Hlast. rewrite zlen_snoc in Hfit.
  apply strip_terminator_unterminated; [congruence | done].
Qed.

(** C5, with the input on which it fails.  A text entry stored with its
    terminator decodes to the string.  The same units stored without the
    terminator decode to the same string when there is at least one unit; with
    none (data of length zero) the reader leaves the bounds of the string:
    the unguarded [str[stringBufferLenInWchars - 1]] again. *)
Theorem text_decode_terminator_forms (hKey : HKEY) (valueName : wstring) (s : wstring)
    (w1 w2 : World) :
  Forall is_wchar s ->
  last s <> Some 0 ->
  (zlen s + 1) * 2 <= DWORD_MAX ->
  hKey ∈ open_keys w1 ->
  registry w1 !! (hKey, valueName) = Some (mkEntry REG_SZ (bytes_of_wchars (s ++ [0]))) ->
  hKey ∈ open_keys w2 ->
  registry w2 !! (hKey, valueName) = Some (mkEntry REG_SZ (bytes_of_wchars s)) ->
  (QueryValue hKey valueName w1).1 = Ok (sz_value REG_SZ s) /\
  (QueryValue hKey valueName w2).1 =
    match s with
    | [] => Undefined (subscript_out_of_range 4294967295 0)
    | _ => Ok (sz_value REG_SZ s)
    end.
Proof.
  intros Hs Hlast Hfit Hopen1 Hlook1 Hopen2 Hlook2.
  pose proof (zlen_nonneg s) as Hpos.
  assert (Hu : Forall is_wchar (s ++ [0]))
    by (apply Forall_app; split; [done | repeat constructor; done]).
  rewrite (QueryValue_dispatch _ _ _ _ Hopen1 Hlook1),
    (QueryValue_dispatch _ _ _ _ Hopen2 Hlook2).
  unfold read_dispatch.
  cbn [entry_type entry_data Z.eqb Pos.eqb REG_SZ REG_BINARY REG_DWORD].
  rewrite !zlen_bytes_of_wchars.
  rewrite (ReadValueStringInternal_units _ _ 1 (s ++ [0])) by (done || (rewrite zlen_snoc; lia)).
  rewrite (ReadValueStringInternal_units _ _ 1 s) by (done || lia).
  rewrite strip_terminator_terminated by lia.
  split; [done |].
  destruct s as [|c s]; [done |].
  by rewrite strip_terminator_last by (done || lia).
Qed.

Lemma text_decode_terminator_forms_witness :
  (QueryValue hKey0 [86] (world_sz_forms [] true)).1 = Ok (sz_value REG_SZ []) /\
  (QueryValue hKey0 [86] (world_sz_forms [] false)).1
    = Undefined (subscript_out_of_range 4294967295 0).
Proof.
  apply (text_decode_terminator_forms hKey0 [86] []
           (world_sz_forms [] true) (world_sz_forms [] false)).
  - constructor.
  - discriminate.
  - vm_compute. discriminate.
  - vm_compute. reflexivity.
  - vm_compute. reflexivity.
  - vm_compute. reflexivity.
  - vm_compute. reflexivity.
Defined.

(** ** The encoding of a string list *)

(** C2. The buffer the REG_MULTI_SZ writer builds is, for the empty list,
    two zero units (four bytes), and for a non-empty list the strings in
    order, each followed by one zero unit, and one more zero unit at the end;
    these units, two bytes each, are what the writer hands to the store.  The
    premise says that the buffer is one a [size_t] can count. *)
Theorem multi_sz_encode_framing (b : Build) (multiString : list wstring) :
  zlen (terminated_strings multiString) + 1 <= SIZE_MAX b ->
  multi_sz_buffer b multiString =
    Ok (match multiString with
        | [] => [0; 0]
        | _ => flat_map (fun s => s ++ [0]) multiString ++ [0]
        end) /\
  bytes_of_wchars [0; 0] = [0; 0; 0; 0] /\
  (forall hKey valueName w,
     hKey ∈ open_keys w ->
     (zlen (terminated_strings multiString) + 2) * 2 <= DWORD_MAX ->
     WriteValueMultiStringInternal b hKey valueName (multi_sz_value multiString) w =
       (Ok tt,
        stored hKey valueName REG_MULTI_SZ
               (bytes_of_wchars
                  (match multiString with
                   | [] => [0; 0]
                   | _ => flat_map (fun s => s ++ [0]) multiString ++ [0]
                   end)) w)).
Proof.
  intros Hfit. split; [| split].
  - by apply multi_sz_buffer_framing.
  - reflexivity.
  - intros hKey valueName w Hopen Hdw. by apply WriteValueMultiStringInternal_ok.
Qed.

Lemma multi_sz_encode_framing_witness :
  multi_sz_buffer Build64 Ciao_Hi_Connie =
    Ok [67; 105; 97; 111; 0; 72; 105; 0; 67; 111; 110; 110; 105; 101; 0; 0].
Proof.
  apply (multi_sz_encode_framing Build64 Ciao_Hi_Connie). vm_compute. discriminate.
Defined.

(** ** Round trips through the store *)

(** The values of the lemmas above are the ones a caller builds with the
    constructor, or [Reset], and the accessor of the kind. *)
Lemma values_as_built (v : RegValue.t) (x : Z) (s : wstring) (l : list wstring) (d : list Z) :
  RegValue.store RegValue.Dword_mut x (RegValue.ctor REG_DWORD) = Ok (dword_value x) /\
  RegValue.store RegValue.String_mut s (RegValue.Reset REG_SZ v) = Ok (sz_value REG_SZ s) /\
  RegValue.store RegValue.ExpandString_mut s (RegValue.Reset REG_EXPAND_SZ v)
    = Ok (sz_value REG_EXPAND_SZ s) /\
  RegValue.store RegValue.MultiString_mut l (RegValue.Reset REG_MULTI_SZ v)
    = Ok (multi_sz_value l) /\
  RegValue.store RegValue.Binary_mut d (RegValue.Reset REG_BINARY v) = Ok (binary_value d).
Proof. repeat split. Qed.

(** C1, as the code has it.  Under an open key, writing a value and reading
    it back returns the value for: every DWORD; every text and expandable
    text; every non-empty blob; and every list of strings none of which is
    empty or contains a zero unit (the empty list included).  Sizes are those
    the 32-bit length field can carry. *)
Theorem roundtrip_supported (b : Build) (hKey : HKEY) (valueName : wstring) (w : World) :
  hKey ∈ open_keys w ->
  (forall x, is_DWORD x ->
     write_then_read b hKey valueName (dword_value x) w = Ok (dword_value x)) /\
  (forall str, Forall is_wchar str -> (zlen str + 1) * 2 <= DWORD_MAX ->
     write_then_read b hKey valueName (sz_value REG_SZ str) w = Ok (sz_value REG_SZ str)) /\
  (forall str, Forall is_wchar str -> (zlen str + 1) * 2 <= DWORD_MAX ->
     write_then_read b hKey valueName (sz_value REG_EXPAND_SZ str) w
     = Ok (sz_value REG_EXPAND_SZ str)) /\
  (forall l,
     Forall (Forall is_wchar) l ->
     Forall (fun s => s <> [] /\ nul_free s) l ->
     (zlen (terminated_strings l) + 2) * 2 <= DWORD_MAX ->
     write_then_read b hKey valueName (multi_sz_value l) w = Ok (multi_sz_value l)) /\
  (forall d, d <> [] -> zlen d <= DWORD_MAX ->
     write_then_read b hKey valueName (binary_value d) w = Ok (binary_value d)).
Proof.
  intros Hopen. repeat split; intros.
  - by apply roundtrip_dword.
  - by apply roundtrip_sz.
  - by apply roundtrip_expand_sz.
  - by apply roundtrip_multi_sz.
  - by apply roundtrip_binary.
Qed.

Lemma roundtrip_supported_witness :
  write_then_read Build64 hKey0 [86] (dword_value 0) world0 = Ok (dword_value 0) /\
  write_then_read Build64 hKey0 [86] (dword_value 4294967295) world0
    = Ok (dword_value 4294967295) /\
  write_then_read Build64 hKey0 [86] (sz_value REG_SZ []) world0 = Ok (sz_value REG_SZ []) /\
  write_then_read Build64 hKey0 [86] (sz_value REG_SZ Hello_World) world0
    = Ok (sz_value REG_SZ Hello_World) /\
  write_then_read Build64 hKey0 [86] (multi_sz_value []) world0 = Ok (multi_sz_value []) /\
  write_then_read Build64 hKey0 [86] (multi_sz_value Ciao_Hi_Connie) world0
    = Ok (multi_sz_value Ciao_Hi_Connie) /\
  write_then_read Build64 hKey0 [86] (binary_value [34; 51; 68]) world0
    = Ok (binary_value [34; 51; 68]).
Proof.
  assert (Hopen : hKey0 ∈ open_keys world0) by (vm_compute; reflexivity).
  pose proof (roundtrip_supported Build64 hKey0 [86] world0 Hopen)
    as (Hdword & Hsz & _ & Hmulti & Hbinary).
  split; [| split; [| split; [| split; [| split; [| split]]]]].
  - apply Hdword. vm_compute. split; discriminate.
  - apply Hdword. vm_compute. split; discriminate.
  - apply Hsz; [constructor | vm_compute; discriminate].
  - apply Hsz; [| vm_compute; discriminate].
    unfold Hello_World. repeat constructor; unfold is_wchar; lia.
  - apply Hmulti; [constructor | constructor | vm_compute; discriminate].
  - apply Hmulti; [| | vm_compute; discriminate].
    + repeat (constructor; [repeat (constructor; [unfold is_wchar; lia |]) |]); constructor.
    + repeat (constructor; [split; [discriminate | repeat (constructor; [lia |]); constructor] |]);
        constructor.
  - apply Hbinary; [discriminate | vm_compute; discriminate].
Defined.

(** C1 as stated fails on a list of one empty string: its encoding is the
    encoding of the empty list, and it reads back as the empty list. *)
Lemma roundtrip_one_empty_string :
  write_then_read Build64 hKey0 [77] (multi_sz_value [[]]) world0 = Ok (multi_sz_value []) /\
  write_then_read Build64 hKey0 [77] (multi_sz_value [[]]) world0 <> Ok (multi_sz_value [[]]).
Proof. split; [vm_compute; reflexivity | vm_compute; discriminate]. Qed.

(** The same framing splits a string at a zero unit it contains, and cuts a
    list at an empty string in its middle. *)
Remark roundtrip_embedded_nul :
  write_then_read Build64 hKey0 [77] (multi_sz_value [[97; 0; 98]]) world0
    = Ok (multi_sz_value [[97]; [98]]) /\
  write_then_read Build64 hKey0 [77] (multi_sz_value [[97]; []; [98]]) world0
    = Ok (multi_sz_value [[97]]).
Proof. split; vm_compute; reflexivity. Qed.

(** The binary writer takes [&data[0]]; on an empty vector that is outside
    the contract of [operator[]], before any call to the store. *)
Remark write_empty_blob (b : Build) (hKey : HKEY) (valueName : wstring) (w : World) :
  SetValue b hKey valueName (binary_value []) w = (Undefined (subscript_out_of_range 0 0), w).
Proof. destruct b; reflexivity. Qed.

(** One unit without a terminator sends the scan of the REG_MULTI_SZ reader
    past the end of its buffer as well. *)
Remark multi_sz_decode_unterminated_unit :
  (QueryValue hKey0 [77]
     (mkWorld {[ (hKey0, [77]) := mkEntry REG_MULTI_SZ [65; 0] ]} {[hKey0]} ∅ [])).1
  = Undefined (read_out_of_bounds 2 2).
Proof. vm_compute. reflexivity. Qed.

(** * Further properties of the code *)

(** ** RegValue: what a caller can build *)

Lemma canonical_ctor (type : Z) : canonical (RegValue.ctor type).
Proof. repeat split. Qed.

Lemma built_canonical (v : RegValue.t) : built v -> canonical v.
Proof.
  induction 1 as [| type | type v _ _
                  | x v v' _ IH Hst | s v v' _ IH Hst | s v v' _ IH Hst
                  | l v v' _ IH Hst | d v v' _ IH Hst ];
    try apply canonical_ctor;
    unfold RegValue.store, RegValue.Dword_mut, RegValue.String_mut,
      RegValue.ExpandString_mut, RegValue.MultiString_mut, RegValue.Binary_mut in Hst;
    match type of Hst with
    | context [ RegValue.m_typeId v =? ?k ] =>
        destruct (Z.eqb_spec (RegValue.m_typeId v) k) as [E|E]; [| discriminate Hst]
    end;
    cbn in Hst; injection Hst as <-;
    destruct IH as (H1 & H2 & H3 & H4 & H5);
    repeat split; cbn; intros Hne; auto; congruence.
Qed.

(** X1. A value obtained with the constructors, [Reset] and assignments
    [value.X() = x] that use the accessor's reference at once has only the
    slot of its kind set: the other payload slots are as initialised.  This
    is not an invariant of the class.  The non-const accessors return
    references into the object and [Reset] leaves them usable, so a caller
    who keeps them can bring a RegValue to any state whatever; with
    [DWORD& r = v.Dword(); v.Reset(REG_SZ); r = 5;] the value is of kind
    REG_SZ and its number slot holds 5. *)
Theorem canonical_unless_reference_kept :
  (forall v, built v -> canonical v) /\
  (forall v, exists refs, obtained refs v) /\
  (exists r,
     RegValue.Dword_mut (RegValue.ctor REG_DWORD) = Ok r /\
     let v := RegValue.assign r 5 (RegValue.Reset REG_SZ (RegValue.ctor REG_DWORD)) in
     obtained [Kept r] v /\
     RegValue.GetType v = REG_SZ /\ RegValue.m_dword v = 5 /\ ~ canonical v).
Proof.
  split; [apply built_canonical |]. split.
  - intros [ty dw st ex mu bi].
    pose proof (obtained_ctor REG_DWORD) as H.
    apply (obtained_Dword RegValue.ref_m_dword) in H; [| reflexivity].
    apply (obtained_Reset REG_SZ) in H.
    apply (obtained_String RegValue.ref_m_string) in H; [| reflexivity].
    apply (obtained_Reset REG_EXPAND_SZ) in H.
    apply (obtained_ExpandString RegValue.ref_m_expandString) in H; [| reflexivity].
    apply (obtained_Reset REG_MULTI_SZ) in H.
    apply (obtained_MultiString RegValue.ref_m_multiString) in H; [| reflexivity].
    apply (obtained_Reset REG_BINARY) in H.
    apply (obtained_Binary RegValue.ref_m_binary) in H; [| reflexivity].
    apply (obtained_Reset ty) in H.
    apply (obtained_assign RegValue.ref_m_dword dw) in H; [| repeat constructor].
    apply (obtained_assign RegValue.ref_m_string st) in H; [| repeat constructor].
    apply (obtained_assign RegValue.ref_m_expandString ex) in H; [| repeat constructor].
    apply (obtained_assign RegValue.ref_m_multiString mu) in H; [| repeat constructor].
    apply (obtained_assign RegValue.ref_m_binary bi) in H; [| repeat constructor].
    eexists. exact H.
  - exists RegValue.ref_m_dword. split; [reflexivity |]. cbv zeta.
    split; [| split; [reflexivity | split; [reflexivity |]]].
    + apply obtained_assign; [| repeat constructor].
      apply obtained_Reset.
      apply obtained_Dword; [apply obtained_ctor | reflexivity].
    + intros (H & _). cbn in H. specialize (H ltac:(discriminate)). discriminate H.
Qed.

Lemma canonical_unless_reference_kept_witness :
  canonical (RegValue.Reset REG_SZ (dword_value 100)).
Proof.
  destruct canonical_unless_reference_kept as [H _].
  apply (H (RegValue.Reset REG_SZ (dword_value 100))).
  apply built_Reset.
  apply (built_Dword 100 (RegValue.ctor REG_DWORD)); [apply built_ctor | reflexivity].
Defined.

Lemma canonical_form (v : RegValue.t) :
  canonical v ->
  (RegValue.m_typeId v = REG_DWORD -> v = dword_value (RegValue.m_dword v)) /\
  (RegValue.m_typeId v = REG_SZ -> v = sz_value REG_SZ (RegValue.m_string v)) /\
  (RegValue.m_typeId v = REG_EXPAND_SZ ->
     v = sz_value REG_EXPAND_SZ (RegValue.m_expandString v)) /\
  (RegValue.m_typeId v = REG_MULTI_SZ -> v = multi_sz_value (RegValue.m_multiString v)) /\
  (RegValue.m_typeId v = REG_BINARY -> v = binary_value (RegValue.m_binary v)).
Proof.
  destruct v as [ty dw st ex mu bi]. unfold canonical. cbn.
  intros (H1 & H2 & H3 & H4 & H5).
  repeat split; intros ->;
    unfold dword_value, sz_value, multi_sz_value, binary_value; cbn;
    f_equal; (apply H1 || apply H2 || apply H3 || apply H4 || apply H5); done.
Qed.

Lemma payload_only_canonical (v : RegValue.t) : canonical (payload_only v).
Proof.
  unfold payload_only. cbv zeta.
  repeat (destruct (_ =? _); [repeat split; done |]).
  apply canonical_ctor.
Qed.

Lemma payload_only_fixed (v : RegValue.t) :
  supported_kind (RegValue.m_typeId v) -> canonical v -> payload_only v = v.
Proof.
  intros Hs Hc. destruct (canonical_form v Hc) as (F1 & F2 & F3 & F4 & F5).
  unfold payload_only, supported_kind in *. cbv zeta.
  destruct (Z.eqb_spec (RegValue.m_typeId v) REG_BINARY) as [E|?]; [by rewrite <- (F5 E) |].
  destruct (Z.eqb_spec (RegValue.m_typeId v) REG_DWORD) as [E|?]; [by rewrite <- (F1 E) |].
  destruct (Z.eqb_spec (RegValue.m_typeId v) REG_SZ) as [E|?]; [by rewrite <- (F2 E) |].
  destruct (Z.eqb_spec (RegValue.m_typeId v) REG_EXPAND_SZ) as [E|?];
    [by rewrite <- (F3 E) |].
  destruct (Z.eqb_spec (RegValue.m_typeId v) REG_MULTI_SZ) as [E|?];
    [by rewrite <- (F4 E) |].
  tauto.
Qed.

Lemma encodable_supported (v : RegValue.t) :
  encodable v -> supported_kind (RegValue.m_typeId v).
Proof.
  unfold encodable, supported_kind. cbv zeta.
  destruct (Z.eqb_spec (RegValue.m_typeId v) REG_BINARY); [tauto |].
  destruct (Z.eqb_spec (RegValue.m_typeId v) REG_DWORD); [tauto |].
  destruct (Z.eqb_spec (RegValue.m_typeId v) REG_SZ); [tauto |].
  destruct (Z.eqb_spec (RegValue.m_typeId v) REG_EXPAND_SZ); [tauto |].
  destruct (Z.eqb_spec (RegValue.m_typeId v) REG_MULTI_SZ); [tauto |].
  done.
Qed.

Lemma encodable_payload_only (v : RegValue.t) : encodable v -> encodable (payload_only v).
Proof.
  unfold encodable, payload_only. cbv zeta.
  destruct (Z.eqb_spec (RegValue.m_typeId v) REG_BINARY) as [E|_]; [done |].
  destruct (Z.eqb_spec (RegValue.m_typeId v) REG_DWORD) as [E|_]; [done |].
  destruct (Z.eqb_spec (RegValue.m_typeId v) REG_SZ) as [E|_]; [done |].
  destruct (Z.eqb_spec (RegValue.m_typeId v) REG_EXPAND_SZ) as [E|_]; [done |].
  destruct (Z.eqb_spec (RegValue.m_typeId v) REG_MULTI_SZ) as [E|_]; [done |].
  done.
Qed.

(** [SetValue] looks at the kind of the value and at the slot of that kind,
    through the const accessor, and at nothing else. *)
Lemma SetValue_payload_only (b : Build) (hKey : HKEY) (valueName : wstring)
    (v : RegValue.t) (w : World) :
  SetValue b hKey valueName v w = SetValue b hKey valueName (payload_only v) w.
Proof.
  unfold SetValue, RegValue.GetType, payload_only. cbv zeta.
  destruct (Z.eqb_spec (RegValue.m_typeId v) REG_BINARY) as [E|N1].
  { cbn [binary_value RegValue.m_typeId REG_BINARY Z.eqb Pos.eqb].
    unfold WriteValueBinaryInternal, RegValue.Binary. cbn [RegValue.m_typeId RegValue.m_binary].
    by rewrite E. }
  destruct (Z.eqb_spec (RegValue.m_typeId v) REG_DWORD) as [E|N2].
  { cbn [dword_value RegValue.m_typeId REG_BINARY REG_DWORD Z.eqb Pos.eqb].
    unfold WriteValueDwordInternal, RegValue.Dword. cbn [RegValue.m_typeId RegValue.m_dword].
    by rewrite E. }
  destruct (Z.eqb_spec (RegValue.m_typeId v) REG_SZ) as [E|N3].
  { cbn [sz_value RegValue.m_typeId REG_BINARY REG_DWORD REG_SZ Z.eqb Pos.eqb].
    unfold WriteValueStringInternal, RegValue.String.
    cbn [RegValue.m_typeId RegValue.m_string]. by rewrite E. }
  destruct (Z.eqb_spec (RegValue.m_typeId v) REG_EXPAND_SZ) as [E|N4].
  { cbn [sz_value RegValue.m_typeId REG_BINARY REG_DWORD REG_SZ REG_EXPAND_SZ Z.eqb Pos.eqb].
    unfold WriteValueExpandStringInternal, RegValue.ExpandString.
    cbn [RegValue.m_typeId RegValue.m_expandString]. by rewrite E. }
  destruct (Z.eqb_spec (RegValue.m_typeId v) REG_MULTI_SZ) as [E|N5].
  { cbn [multi_sz_value RegValue.m_typeId REG_BINARY REG_DWORD REG_SZ REG_EXPAND_SZ
         REG_MULTI_SZ Z.eqb Pos.eqb].
    unfold WriteValueMultiStringInternal, RegValue.MultiString.
    cbn [RegValue.m_typeId RegValue.m_multiString]. by rewrite E. }
  cbn [RegValue.ctor RegValue.m_typeId].
  by rewrite (proj2 (Z.eqb_neq _ _) N1), (proj2 (Z.eqb_neq _ _) N2),
    (proj2 (Z.eqb_neq _ _) N3), (proj2 (Z.eqb_neq _ _) N4), (proj2 (Z.eqb_neq _ _) N5).
Qed.

Lemma roundtrip_canonical (b : Build) (hKey : HKEY) (valueName : wstring) (v : RegValue.t)
    (w : World) :
  canonical v -> encodable v -> hKey ∈ open_keys w ->
  write_then_read b hKey valueName v w = Ok v.
Proof.
  intros Hc Hen Hopen.
  destruct (canonical_form v Hc) as (F1 & F2 & F3 & F4 & F5).
  unfold encodable in Hen. cbv zeta in Hen.
  destruct (Z.eqb_spec (RegValue.m_typeId v) REG_BINARY) as [E|_].
  { rewrite (F5 E). destruct Hen. by apply roundtrip_binary. }
  destruct (Z.eqb_spec (RegValue.m_typeId v) REG_DWORD) as [E|_].
  { rewrite (F1 E). by apply roundtrip_dword. }
  destruct (Z.eqb_spec (RegValue.m_typeId v) REG_SZ) as [E|_].
  { rewrite (F2 E). destruct Hen. by apply roundtrip_sz. }
  destruct (Z.eqb_spec (RegValue.m_typeId v) REG_EXPAND_SZ) as [E|_].
  { rewrite (F3 E). destruct Hen. by apply roundtrip_expand_sz. }
  destruct (Z.eqb_spec (RegValue.m_typeId v) REG_MULTI_SZ) as [E|_]; [| done].
  rewrite (F4 E). destruct Hen as (? & ? & ?). by apply roundtrip_multi_sz.
Qed.

(** X2. The round trip through the store carries the kind and the payload
    of that kind, and nothing else.  For every RegValue of a supported kind
    whose payload the store can carry, whatever its other slots hold,
    [QueryValue] after [SetValue] returns the value of that kind with that
    payload and its other slots as initialised.  So the value read is the
    value written, in all its slots, exactly when the value written has
    only the slot of its kind set. *)
Theorem roundtrip_keeps_payload_only (b : Build) (hKey : HKEY) (valueName : wstring)
    (v : RegValue.t) (w : World) :
  encodable v -> hKey ∈ open_keys w ->
  write_then_read b hKey valueName v w = Ok (payload_only v) /\
  RegValue.GetType (payload_only v) = RegValue.GetType v /\
  canonical (payload_only v) /\
  (write_then_read b hKey valueName v w = Ok v <-> canonical v).
Proof.
  intros Hen Hopen.
  assert (Hrt : write_then_read b hKey valueName v w = Ok (payload_only v)).
  { unfold write_then_read, bind. rewrite SetValue_payload_only.
    apply (roundtrip_canonical b hKey valueName (payload_only v) w);
      [apply payload_only_canonical | by apply encodable_payload_only | done]. }
  split; [done |]. split.
  { unfold payload_only, RegValue.GetType. cbv zeta.
    destruct (Z.eqb_spec (RegValue.m_typeId v) REG_BINARY) as [E|_]; [done |].
    destruct (Z.eqb_spec (RegValue.m_typeId v) REG_DWORD) as [E|_]; [done |].
    destruct (Z.eqb_spec (RegValue.m_typeId v) REG_SZ) as [E|_]; [done |].
    destruct (Z.eqb_spec (RegValue.m_typeId v) REG_EXPAND_SZ) as [E|_]; [done |].
    destruct (Z.eqb_spec (RegValue.m_typeId v) REG_MULTI_SZ) as [E|_]; [done |].
    done. }
  split; [apply payload_only_canonical |].
  rewrite Hrt. split.
  - intros [= E]. rewrite <- E. apply payload_only_canonical.
  - intros Hc. f_equal. apply payload_only_fixed; [by apply encodable_supported | done].
Qed.

Lemma roundtrip_keeps_payload_only_witness :
  write_then_read Build64 hKey0 [86]
    (RegValue.assign RegValue.ref_m_dword 5 (sz_value REG_SZ [72; 105])) world0
  = Ok (sz_value REG_SZ [72; 105]).
Proof.
  apply (roundtrip_keeps_payload_only Build64 hKey0 [86]
           (RegValue.assign RegValue.ref_m_dword 5 (sz_value REG_SZ [72; 105])) world0).
  - split; [repeat constructor; unfold is_wchar; lia | vm_compute; discriminate].
  - vm_compute. reflexivity.
Defined.

(** ** RegKey: ownership *)

Lemma Close_effect (this : nat) (w : World) :
  RegKey.Close this w = (Ok tt, after_Close this w).
Proof.
  unfold RegKey.Close, RegKey.m_hKey, RegKey.set_m_hKey, Win32.RegCloseKey, after_Close, owner.
  run. destruct (default nullptr (heap w !! this) =? nullptr) eqn:E; cbn [negb]; [done |].
  cbn [logged open_keys registry heap calls].
  destruct (bool_decide (default nullptr (heap w !! this) ∈ open_keys w)) eqn:Hin;
    cbn [logged open_keys registry heap calls]; [done |].
  apply bool_decide_eq_false in Hin.
  do 2 f_equal. symmetry. apply difference_disjoint_L, disjoint_singleton_r. done.
Qed.

Lemma heap_after_Close (this : nat) (w : World) :
  heap (after_Close this w) = <[this := nullptr]> (heap w).
Proof. unfold after_Close. by destruct (owner w this =? nullptr). Qed.

Lemma calls_after_Close (this : nat) (w : World) :
  calls (after_Close this w) = calls w ++ release (owner w this).
Proof.
  unfold after_Close, release. destruct (owner w this =? nullptr); [| done].
  cbn. by rewrite app_nil_r.
Qed.

Lemma exclusive_insert_null (hp : gmap nat HKEY) (this : nat) (w : World) :
  exclusive w -> heap w = hp ->
  forall w', heap w' = <[this := nullptr]> hp -> exclusive w'.
Proof.
  intros Hex <- w' Hw' i j h Hi Hj Hh. rewrite Hw' in Hi, Hj.
  rewrite lookup_insert in Hi, Hj.
  repeat case_decide; simplify_eq; eauto.
Qed.

Lemma exclusive_move (this other : nat) (w w' : World) :
  exclusive w ->
  heap w' = <[other := nullptr]> (<[this := owner w other]> (heap w)) ->
  exclusive w'.
Proof.
  intros Hex Hw' i j h Hi Hj Hh. rewrite Hw' in Hi, Hj.
  rewrite !lookup_insert in Hi, Hj. unfold owner in *.
  repeat case_decide; simplify_eq; try done;
    destruct (heap w !! other) as [ho|] eqn:Ho; cbn in *; simplify_eq;
    first [ by eapply Hex | by (symmetry; eapply Hex) | exfalso; eauto ].
Qed.

Lemma move_ctor_effect (this other : nat) (w : World) :
  RegKey.move_ctor this other w =
    (Ok tt, mkWorld (registry w) (open_keys w)
              (<[other := nullptr]> (<[this := owner w other]> (heap w))) (calls w)).
Proof. reflexivity. Qed.

Lemma owner_after_Close_ne (this other : nat) (w : World) :
  other <> this -> owner (after_Close this w) other = owner w other.
Proof.
  intros Hne. unfold owner at 1. rewrite heap_after_Close.
  by rewrite lookup_insert_ne by done.
Qed.

Lemma move_assign_effect (this other : nat) (w : World) :
  other <> this ->
  RegKey.move_assign this other w =
    (Ok tt, mkWorld (registry (after_Close this w)) (open_keys (after_Close this w))
              (<[other := nullptr]> (<[this := owner w other]> (heap (after_Close this w))))
              (calls (after_Close this w))).
Proof.
  intros Hne. unfold RegKey.move_assign. rewrite decide_True by done.
  unfold bind at 1. rewrite Close_effect.
  rewrite <- (owner_after_Close_ne this other w Hne). reflexivity.
Qed.

Lemma exclusive_swap (this other : nat) (w w' : World) :
  exclusive w ->
  heap w' = <[other := owner w this]> (<[this := owner w other]> (heap w)) ->
  exclusive w'.
Proof.
  intros Hex Hw' i j h Hi Hj Hh. rewrite Hw' in Hi, Hj.
  rewrite !lookup_insert in Hi, Hj. unfold owner in *.
  destruct (heap w !! other) as [ho|] eqn:Ho;
    destruct (heap w !! this) as [ht|] eqn:Ht; cbn in *;
    repeat case_decide; simplify_eq;
    first [ done | by eapply Hex | by (symmetry; eapply Hex) | exfalso; eauto ].
Qed.

(** X3. Exclusive ownership is an invariant of the handle operations: if no
    handle is held by two RegKey objects, none is after a default
    construction, a move construction, a move assignment, [Close], [Detach],
    [Swap] or a destruction. *)
Theorem ownership_stays_exclusive (this other : nat) (w : World) :
  exclusive w ->
  exclusive (RegKey.default_ctor this w).2 /\
  exclusive (RegKey.move_ctor this other w).2 /\
  exclusive (RegKey.move_assign this other w).2 /\
  exclusive (RegKey.Close this w).2 /\
  exclusive (RegKey.Detach this w).2 /\
  exclusive (RegKey.Swap this other w).2 /\
  exclusive (RegKey.dtor this w).2.
Proof.
  intros Hex.
  assert (HClose : exclusive (after_Close this w))
    by (eapply (exclusive_insert_null _ this w); [done.. | apply heap_after_Close]).
  split; [| split; [| split; [| split; [| split; [| split]]]]].
  - by eapply (exclusive_insert_null _ this w).
  - rewrite move_ctor_effect. by eapply (exclusive_move this other w).
  - destruct (decide (other = this)) as [->|Hne].
    + by rewrite move_assign_self.
    + rewrite move_assign_effect by done. cbn [snd].
      eapply (exclusive_move this other (after_Close this w)); [done |].
      cbn [heap]. by rewrite owner_after_Close_ne.
  - by rewrite Close_effect.
  - by eapply (exclusive_insert_null _ this w).
  - by eapply (exclusive_swap this other w).
  - unfold RegKey.dtor. unfold bind at 1. rewrite Close_effect.
    intros i j h Hi Hj Hh. cbn in Hi, Hj.
    rewrite lookup_delete in Hi, Hj.
    repeat case_decide; simplify_eq. by eapply HClose.
Qed.

Lemma ownership_stays_exclusive_witness :
  exclusive (RegKey.move_assign 8 7 world_keys).2.
Proof.
  apply (ownership_stays_exclusive 8 7 world_keys).
  intros i j h Hi Hj Hh. unfold world_keys in Hi, Hj. cbn [heap] in Hi, Hj.
  rewrite lookup_insert, lookup_singleton in Hi, Hj.
  repeat case_decide; simplify_eq; done.
Defined.

Lemma owner_insert (hp : gmap nat HKEY) (this i : nat) (h : HKEY) (w : World) :
  heap w = <[this := h]> hp ->
  owner w i = if decide (this = i) then h else default nullptr (hp !! i).
Proof. intros Hw. unfold owner. rewrite Hw, lookup_insert. by case_decide. Qed.

(** X4. A move hands the source's handle to the target and leaves the source
    empty.  The move construction calls nothing; the move assignment from
    another object first releases the handle the target held, with one
    [RegCloseKey] on it when it was a handle, and calls nothing else. *)
Theorem move_transfers_ownership (this other : nat) (w : World) :
  other <> this ->
  (let w' := (RegKey.move_ctor this other w).2 in
   owner w' this = owner w other /\ owner w' other = nullptr /\
   calls w' = calls w /\ open_keys w' = open_keys w) /\
  (let w' := (RegKey.move_assign this other w).2 in
   owner w' this = owner w other /\ owner w' other = nullptr /\
   calls w' = calls w ++ release (owner w this) /\
   open_keys w' = open_keys (after_Close this w)).
Proof.
  intros Hne. split; cbv zeta.
  - rewrite move_ctor_effect. cbn [snd calls open_keys].
    repeat split.
    + erewrite owner_insert by reflexivity. rewrite decide_False by done.
      rewrite lookup_insert_eq. done.
    + erewrite owner_insert by reflexivity. by rewrite decide_True.
  - rewrite move_assign_effect by done. cbn [snd calls open_keys].
    repeat split.
    + erewrite owner_insert by reflexivity. rewrite decide_False by done.
      rewrite lookup_insert_eq. done.
    + erewrite owner_insert by reflexivity. by rewrite decide_True.
    + apply calls_after_Close.
Qed.

Lemma move_transfers_ownership_witness :
  let w' := (RegKey.move_assign 8 7 world_keys).2 in
  owner w' 8 = hKey0 /\ owner w' 7 = nullptr /\ calls w' = [].
Proof.
  pose proof (move_transfers_ownership 8 7 world_keys ltac:(lia)) as [_ H].
  cbv zeta in *. destruct H as (H1 & H2 & H3 & _).
  split; [exact H1 | split; [exact H2 | exact H3]].
Defined.

Lemma dtor_effect (this : nat) (w : World) :
  RegKey.dtor this w =
    (Ok tt, mkWorld (registry (after_Close this w)) (open_keys (after_Close this w))
              (delete this (heap (after_Close this w))) (calls (after_Close this w))).
Proof. unfold RegKey.dtor. unfold bind at 1. by rewrite Close_effect. Qed.

(** X5. A handle that is wrapped, moved to a second RegKey and then goes out
    of scope with both objects is released exactly once: the two destructors
    make a single [RegCloseKey] call between them, the handle is no longer
    open, and neither object is left. *)
Theorem moved_handle_released_once (a b : nat) (h : HKEY) (w : World) :
  a <> b -> h <> nullptr ->
  let w' := (scope_with_move a b h w).2 in
  (scope_with_move a b h w).1 = Ok tt /\
  calls w' = calls w ++ [CallRegCloseKey h] /\
  (h ∉ open_keys w') /\
  heap w' !! a = None /\ heap w' !! b = None.
Proof.
  intros Hab Hh. unfold scope_with_move, RegKey.ctor, RegKey.set_m_hKey. run.
  rewrite move_ctor_effect. cbn [heap].
  set (w1 := mkWorld _ _ _ _).
  assert (Hb : owner w1 b = h).
  { unfold owner, w1. cbn [heap]. rewrite lookup_insert_ne, lookup_insert_eq by done.
    unfold owner. cbn [heap]. by rewrite lookup_insert_eq. }
  assert (Hnz : (h =? nullptr) = false) by (by apply Z.eqb_neq).
  rewrite dtor_effect.
  set (w2 := mkWorld _ _ (delete b _) _).
  assert (Ha : owner w2 a = nullptr).
  { unfold owner, w2. cbn [heap]. rewrite lookup_delete_ne by done.
    rewrite heap_after_Close, lookup_insert_ne by done.
    unfold w1. cbn [heap]. by rewrite lookup_insert_eq. }
  rewrite dtor_effect. cbv zeta. cbn [fst snd calls open_keys heap].
  assert (Hw2 : after_Close a w2 =
                mkWorld (registry w2) (open_keys w2) (<[a := nullptr]> (heap w2)) (calls w2)).
  { unfold after_Close. by rewrite Ha. }
  assert (Hw1 : after_Close b w1 =
                mkWorld (registry w1) (open_keys w1 ∖ {[h]}) (<[b := nullptr]> (heap w1))
                        (calls w1 ++ [CallRegCloseKey h])).
  { unfold after_Close. by rewrite Hb, Hnz. }
  rewrite Hw2. cbn [registry open_keys heap calls]. unfold w2.
  cbn [registry open_keys heap calls]. rewrite Hw1.
  cbn [registry open_keys heap calls].
  split; [done |]. split; [done |].
  split; [rewrite elem_of_difference, elem_of_singleton; tauto |].
  split.
  - apply lookup_delete_eq.
  - rewrite lookup_delete_ne, lookup_insert_ne by done. apply lookup_delete_eq.
Qed.

Lemma moved_handle_released_once_witness :
  calls (scope_with_move 1 2 hKey0 world0).2 = [CallRegCloseKey hKey0].
Proof.
  apply (moved_handle_released_once 1 2 hKey0 world0); [lia | vm_compute; discriminate].
Defined.

(** X6. [Detach] returns the handle the object held and leaves the object
    empty without calling the store, so the handle stays open; a destructor
    that runs afterwards releases nothing. *)
Theorem Detach_relinquishes (this : nat) (w : World) :
  let r := bind (RegKey.Detach this) (fun hKey => bind (RegKey.dtor this) (fun _ => ret hKey)) w in
  (RegKey.Detach this w).1 = Ok (owner w this) /\
  owner (RegKey.Detach this w).2 this = nullptr /\
  r.1 = Ok (owner w this) /\
  calls r.2 = calls w /\ open_keys r.2 = open_keys w /\ registry r.2 = registry w.
Proof.
  cbv zeta. unfold RegKey.Detach, RegKey.m_hKey, RegKey.set_m_hKey. run.
  split; [done |].
  split.
  { unfold owner. cbn [snd heap]. by rewrite lookup_insert_eq. }
  set (w1 := mkWorld _ _ _ _).
  rewrite dtor_effect.
  assert (H1 : owner w1 this = nullptr)
    by (unfold owner, w1; cbn [heap]; by rewrite lookup_insert_eq).
  unfold after_Close. rewrite H1. cbn. done.
Qed.

Lemma Attach_effect (this : nat) (hKey : HKEY) (w : World) :
  RegKey.Attach this hKey w =
    (Ok tt, mkWorld (registry (after_Close this w)) (open_keys (after_Close this w))
              (<[this := hKey]> (heap (after_Close this w))) (calls (after_Close this w))).
Proof. unfold RegKey.Attach. unfold bind at 1. by rewrite Close_effect. Qed.

(** X7. [Attach] releases the handle the object held, with one
    [RegCloseKey] on it when it was a handle, and the object then holds the
    new handle.  This is so also when the new handle is the one the object
    already held: it is closed and kept, and the object reports itself valid
    while its key is no longer open. *)
Theorem Attach_replaces (this : nat) (hKey : HKEY) (w : World) :
  let w' := (RegKey.Attach this hKey w).2 in
  (RegKey.Attach this hKey w).1 = Ok tt /\
  owner w' this = hKey /\
  calls w' = calls w ++ release (owner w this) /\
  (hKey = owner w this -> hKey <> nullptr ->
     (RegKey.IsValid this w').1 = Ok true /\ hKey ∉ open_keys w').
Proof.
  cbv zeta. rewrite Attach_effect. cbn [fst snd calls].
  split; [done |].
  split.
  { unfold owner. cbn [heap]. by rewrite lookup_insert_eq. }
  split; [apply calls_after_Close |].
  intros -> Hnz. split.
  - erewrite IsValid_lookup by (cbn [heap]; apply lookup_insert_eq).
    cbn [fst]. by rewrite (proj2 (Z.eqb_neq _ _) Hnz).
  - cbn [open_keys]. unfold after_Close. rewrite (proj2 (Z.eqb_neq _ _) Hnz).
    cbn [open_keys]. rewrite elem_of_difference, elem_of_singleton. tauto.
Qed.

Lemma Attach_replaces_witness :
  let w' := (RegKey.Attach 7 hKey0 world_keys).2 in
  (RegKey.IsValid 7 w').1 = Ok true /\ hKey0 ∉ open_keys w'.
Proof.
  apply (Attach_replaces 7 hKey0 world_keys); [reflexivity | vm_compute; discriminate].
Defined.

(** X8. [Swap], and the free function [swap], exchange the handles of two
    objects and call nothing; swapping a second time puts both handles
    back. *)
Theorem Swap_exchanges (this other : nat) (w : World) :
  let w' := (RegKey.Swap this other w).2 in
  let w'' := (RegKey.Swap this other w').2 in
  swap this other w = RegKey.Swap this other w /\
  (RegKey.Swap this other w).1 = Ok tt /\
  owner w' this = owner w other /\ owner w' other = owner w this /\
  calls w' = calls w /\ open_keys w' = open_keys w /\ registry w' = registry w /\
  owner w'' this = owner w this /\ owner w'' other = owner w other.
Proof.
  assert (Hswap : forall w0,
            let w1 := (RegKey.Swap this other w0).2 in
            owner w1 this = owner w0 other /\ owner w1 other = owner w0 this).
  { intros w0. cbv zeta. unfold RegKey.Swap, RegKey.m_hKey, RegKey.set_m_hKey. run.
    unfold owner. cbn [snd heap]. rewrite !lookup_insert.
    repeat case_decide; simplify_eq; done. }
  cbv zeta. pose proof (Hswap w) as [H1 H2].
  pose proof (Hswap (RegKey.Swap this other w).2) as [H3 H4]. cbv zeta in *.
  repeat split; try done; congruence.
Qed.

(** ** Values under other names are not touched *)

Lemma respects_ret {A} hKey valueName (a : A) : respects hKey valueName (ret a).
Proof. intros w1 w2 H. done. Qed.


















(** ** Missing values, deleted values, closed keys *)

Lemma QueryValue_missing (hKey : HKEY) (valueName : wstring) (w : World) :
  hKey ∈ open_keys w -> registry w !! (hKey, valueName) = None ->
  QueryValue hKey valueName w =
    (Throw (value_info_failed ERROR_FILE_NOT_FOUND),
     logged (CallRegQueryValueEx hKey valueName false 0) w).
Proof.
  intros Hopen Hlook. unfold QueryValue, Win32.RegQueryValueEx. run.
  cbn [logged open_keys registry]. rewrite bool_decide_eq_true_2 by done.
  by rewrite Hlook.
Qed.

(** X10. [QueryValue] on a name the key does not hold throws a
    [RegException] carrying [ERROR_FILE_NOT_FOUND], and on a key that is not
    open one carrying [ERROR_INVALID_HANDLE]; in both cases it has made its
    one size-and-kind query and no read of data. *)
Theorem QueryValue_not_there (hKey : HKEY) (valueName : wstring) (w : World) :
  (hKey ∈ open_keys w -> registry w !! (hKey, valueName) = None ->
   QueryValue hKey valueName w =
     (Throw (value_info_failed ERROR_FILE_NOT_FOUND),
      logged (CallRegQueryValueEx hKey valueName false 0) w)) /\
  (hKey ∉ open_keys w ->
   QueryValue hKey valueName w =
     (Throw (value_info_failed ERROR_INVALID_HANDLE),
      logged (CallRegQueryValueEx hKey valueName false 0) w)).
Proof.
  split.
  - apply QueryValue_missing.
  - intros Hclosed. unfold QueryValue, Win32.RegQueryValueEx. run.
    cbn [logged open_keys registry]. by rewrite bool_decide_eq_false_2 by done.
Qed.

Lemma QueryValue_not_there_witness :
  QueryValue hKey0 [86] world0 =
    (Throw (value_info_failed ERROR_FILE_NOT_FOUND),
     logged (CallRegQueryValueEx hKey0 [86] false 0) world0).
Proof.
  apply (QueryValue_not_there hKey0 [86] world0); vm_compute; reflexivity.
Defined.

Lemma DeleteValue_ok (hKey : HKEY) (valueName : wstring) (e : RegEntry) (w : World) :
  hKey ∈ open_keys w ->
  registry w !! (hKey, valueName) = Some e ->
  DeleteValue hKey valueName w =
    (Ok tt, mkWorld (delete (hKey, valueName) (registry w)) (open_keys w) (heap w) (calls w)).
Proof.
  intros Hopen Hlook. unfold DeleteValue, Advapi32.RegDeleteValue. run.
  rewrite bool_decide_eq_true_2 by done. by rewrite Hlook.
Qed.

Lemma DeleteValue_missing (hKey : HKEY) (valueName : wstring) (w : World) :
  hKey ∈ open_keys w ->
  registry w !! (hKey, valueName) = None ->
  DeleteValue hKey valueName w
    = (Throw (RegException "RegDeleteValue() failed." ERROR_FILE_NOT_FOUND), w).
Proof.
  intros Hopen Hlook. unfold DeleteValue, Advapi32.RegDeleteValue. run.
  rewrite bool_decide_eq_true_2 by done. by rewrite Hlook.
Qed.

(** X11. Under an open key, deleting a value that is there succeeds, removes
    that entry and no other, and a [QueryValue] of the name afterwards throws
    the [RegException] with [ERROR_FILE_NOT_FOUND]; deleting a value that is
    not there throws a [RegException] with [ERROR_FILE_NOT_FOUND] and leaves
    the world as it was. *)
Theorem deleted_value_is_gone (hKey : HKEY) (valueName : wstring) (w : World) :
  hKey ∈ open_keys w ->
  (is_Some (registry w !! (hKey, valueName)) ->
     (DeleteValue hKey valueName w).1 = Ok tt /\
     registry (DeleteValue hKey valueName w).2 = delete (hKey, valueName) (registry w) /\
     (bind (DeleteValue hKey valueName) (fun _ => QueryValue hKey valueName) w).1
       = Throw (value_info_failed ERROR_FILE_NOT_FOUND)) /\
  (registry w !! (hKey, valueName) = None ->
     DeleteValue hKey valueName w
       = (Throw (RegException "RegDeleteValue() failed." ERROR_FILE_NOT_FOUND), w)).
Proof.
  intros Hopen. split.
  - intros [e Hlook]. unfold bind at 1.
    rewrite (DeleteValue_ok _ _ e) by done. cbn [fst snd registry].
    split; [done |]. split; [done |].
    rewrite QueryValue_missing; [done | done |]. cbn [registry]. apply lookup_delete_eq.
  - by apply DeleteValue_missing.
Qed.

Lemma deleted_value_is_gone_witness :
  (bind (DeleteValue hKey0 [87]) (fun _ => QueryValue hKey0 [87]) world_two_values).1
  = Throw (value_info_failed ERROR_FILE_NOT_FOUND).
Proof.
  apply (deleted_value_is_gone hKey0 [87] world_two_values).
  - vm_compute. reflexivity.
  - vm_compute. eauto.
Defined.

Lemma RegSetValueEx_closed (hKey : HKEY) (valueName : wstring) (type : Z) (lpData : list Z)
    (cbData : Z) (w : World) :
  hKey ∉ open_keys w ->
  cbData = zlen lpData ->
  Win32.RegSetValueEx hKey valueName type lpData cbData w =
    (Ok ERROR_INVALID_HANDLE, logged (CallRegSetValueEx hKey valueName type lpData) w).
Proof.
  intros Hclosed ->. unfold Win32.RegSetValueEx. run.
  rewrite Z.leb_refl. cbn [open_keys registry logged].
  rewrite bool_decide_eq_false_2 by done.
  unfold zlen. rewrite Nat2Z.id, firstn_all. done.
Qed.

Ltac finish_write_closed Hclosed :=
  cbn [obind]; run;
  rewrite RegSetValueEx_closed
    by (exact Hclosed ||
        (rewrite ?zlen_bytes_of_wchars, ?zlen_snoc; unfold wstring_storage;
         rewrite ?zlen_snoc; lia));
  cbn [Z.eqb ERROR_SUCCESS ERROR_INVALID_HANDLE negb fst snd registry logged];
  eauto.

(** X12. Writing a value a caller can build, of a supported kind and with a
    payload the store can carry, under a key that is not open throws a
    [RegException] carrying [ERROR_INVALID_HANDLE], and the registry is as it
    was. *)
Theorem SetValue_closed_key (b : Build) (hKey : HKEY) (valueName : wstring) (v : RegValue.t)
    (w : World) :
  built v -> encodable v -> hKey ∉ open_keys w ->
  (exists msg, (SetValue b hKey valueName v w).1 = Throw (RegException msg ERROR_INVALID_HANDLE))
  /\ registry (SetValue b hKey valueName v w).2 = registry w.
Proof.
  intros Hb Hen Hclosed.
  destruct (canonical_form v (built_canonical v Hb)) as (F1 & F2 & F3 & F4 & F5).
  unfold encodable in Hen. cbv zeta in Hen.
  pose proof (DWORD_MAX_le_SIZE_MAX b) as Hmax.
  destruct (Z.eqb_spec (RegValue.m_typeId v) REG_BINARY) as [E|_].
  { rewrite (F5 E). destruct Hen as [Hne Hfit].
    set (d := RegValue.m_binary v) in *. pose proof (zlen_nonneg d).
    change (SetValue b hKey valueName (binary_value d))
      with (WriteValueBinaryInternal b hKey valueName (binary_value d)).
    unfold WriteValueBinaryInternal. run.
    change (RegValue.Binary (binary_value d)) with (Ok d). cbn beta iota.
    rewrite SafeSizeToDwordCast_fits by lia.
    destruct d as [|x d]; [done |]. cbn [vector_front_addr].
    finish_write_closed Hclosed. }
  destruct (Z.eqb_spec (RegValue.m_typeId v) REG_DWORD) as [E|_].
  { rewrite (F1 E).
    change (SetValue b hKey valueName (dword_value (RegValue.m_dword v)))
      with (WriteValueDwordInternal hKey valueName (dword_value (RegValue.m_dword v))).
    unfold WriteValueDwordInternal. run.
    change (RegValue.Dword (dword_value (RegValue.m_dword v))) with (Ok (RegValue.m_dword v)).
    cbn beta iota. rewrite RegSetValueEx_closed by done.
    cbn [Z.eqb ERROR_SUCCESS ERROR_INVALID_HANDLE negb fst snd registry logged]. eauto. }
  destruct (Z.eqb_spec (RegValue.m_typeId v) REG_SZ) as [E|_].
  { rewrite (F2 E). destruct Hen as [Hw Hfit].
    set (str := RegValue.m_string v) in *. pose proof (zlen_nonneg str).
    change (SetValue b hKey valueName (sz_value REG_SZ str))
      with (WriteValueStringInternal b hKey valueName (sz_value REG_SZ str)).
    unfold WriteValueStringInternal. run.
    change (RegValue.String (sz_value REG_SZ str)) with (Ok str). cbn beta iota.
    rewrite wide_size_exact, SafeSizeToDwordCast_fits by lia.
    finish_write_closed Hclosed. }
  destruct (Z.eqb_spec (RegValue.m_typeId v) REG_EXPAND_SZ) as [E|_].
  { rewrite (F3 E). destruct Hen as [Hw Hfit].
    set (str := RegValue.m_expandString v) in *. pose proof (zlen_nonneg str).
    change (SetValue b hKey valueName (sz_value REG_EXPAND_SZ str))
      with (WriteValueExpandStringInternal b hKey valueName (sz_value REG_EXPAND_SZ str)).
    unfold WriteValueExpandStringInternal. run.
    change (RegValue.ExpandString (sz_value REG_EXPAND_SZ str)) with (Ok str). cbn beta iota.
    rewrite wide_size_exact, SafeSizeToDwordCast_fits by lia.
    finish_write_closed Hclosed. }
  destruct (Z.eqb_spec (RegValue.m_typeId v) REG_MULTI_SZ) as [E|_]; [| done].
  rewrite (F4 E). destruct Hen as (Hw & Hl & Hfit).
  set (l := RegValue.m_multiString v) in *.
  pose proof (zlen_nonneg (terminated_strings l)).
  pose proof (zlen_multi_sz_framing l). pose proof (zlen_nonneg (multi_sz_framing l)).
  change (SetValue b hKey valueName (multi_sz_value l))
    with (WriteValueMultiStringInternal b hKey valueName (multi_sz_value l)).
  unfold WriteValueMultiStringInternal. run.
  change (RegValue.MultiString (multi_sz_value l)) with (Ok l). cbn beta iota.
  rewrite multi_sz_buffer_framing by lia.
  unfold size_mul, sizeof_wchar_t. rewrite to_size_t_small by lia.
  rewrite SafeSizeToDwordCast_fits by lia.
  finish_write_closed Hclosed.
Qed.

Lemma SetValue_closed_key_witness :
  registry (SetValue Build64 1 [86] (dword_value 100) world0).2 = registry world0.
Proof.
  apply (SetValue_closed_key Build64 1 [86] (dword_value 100) world0).
  - apply (built_Dword 100 (RegValue.ctor REG_DWORD)); [apply built_ctor | reflexivity].
  - vm_compute. split; discriminate.
  - vm_compute. discriminate.
Defined.

(** ** Reading entries another program wrote *)

(** X13. A REG_DWORD entry is read into a four-byte buffer: data of at most
    four bytes gives the little-endian number of those bytes, the missing
    high bytes being zero; data of more than four bytes makes the store
    report [ERROR_MORE_DATA], which is thrown as a [RegException]. *)
Theorem dword_entry_sizes (hKey : HKEY) (valueName : wstring) (data : list Z) (w : World) :
  hKey ∈ open_keys w ->
  registry w !! (hKey, valueName) = Some (mkEntry REG_DWORD data) ->
  (zlen data <= 4 ->
     (QueryValue hKey valueName w).1 =
       Ok (dword_value (dword_of_bytes (data ++ replicate (4 - length data) 0)))) /\
  (4 < zlen data ->
     (QueryValue hKey valueName w).1 =
       Throw (RegException "RegQueryValueEx() failed in returning REG_DWORD value."
                           ERROR_MORE_DATA)).
Proof.
  intros Hopen Hlook.
  rewrite (QueryValue_dispatch _ _ _ _ Hopen Hlook).
  change (read_dispatch hKey valueName (mkEntry REG_DWORD data))
    with (ReadValueDwordInternal hKey valueName).
  split; intros Hsz.
  - unfold ReadValueDwordInternal. run.
    erewrite RegQueryValueEx_data; [ | exact Hopen | exact Hlook | done | done ].
    cbn [Win32.q_status Win32.q_buffer entry_data Z.eqb ERROR_SUCCESS negb fst].
    unfold poke. change (dword_bytes 0) with (replicate 4 0).
    by rewrite drop_replicate.
  - unfold ReadValueDwordInternal, Win32.RegQueryValueEx. run.
    cbn [logged open_keys registry]. rewrite bool_decide_eq_true_2 by done.
    rewrite Hlook. cbn [entry_data entry_type].
    unfold sizeof_DWORD. rewrite (proj2 (Z.leb_gt _ _)) by lia. done.
Qed.

Lemma dword_entry_sizes_witness :
  (QueryValue hKey0 [87]
     (mkWorld {[ (hKey0, [87]) := mkEntry REG_DWORD [1; 2] ]} {[hKey0]} ∅ [])).1
  = Ok (dword_value 513).
Proof.
  apply (dword_entry_sizes hKey0 [87] [1; 2]
           (mkWorld {[ (hKey0, [87]) := mkEntry REG_DWORD [1; 2] ]} {[hKey0]} ∅ []));
    vm_compute; (reflexivity || discriminate).
Defined.

(** X14. A REG_BINARY entry is read back as exactly the bytes the store
    holds, whatever their number, none included. *)
Theorem binary_entry_exact (hKey : HKEY) (valueName : wstring) (data : list Z) (w : World) :
  hKey ∈ open_keys w ->
  registry w !! (hKey, valueName) = Some (mkEntry REG_BINARY data) ->
  (QueryValue hKey valueName w).1 = Ok (binary_value data).
Proof.
  intros Hopen Hlook.
  rewrite (QueryValue_dispatch _ _ _ _ Hopen Hlook).
  unfold read_dispatch. cbn [entry_type entry_data REG_BINARY Z.eqb Pos.eqb].
  by rewrite (ReadValueBinaryInternal_bytes _ _ REG_BINARY data).
Qed.

Lemma binary_entry_exact_witness :
  (QueryValue hKey0 [66]
     (mkWorld {[ (hKey0, [66]) := mkEntry REG_BINARY [] ]} {[hKey0]} ∅ [])).1
  = Ok (binary_value []).
Proof.
  apply (binary_entry_exact hKey0 [66] []
           (mkWorld {[ (hKey0, [66]) := mkEntry REG_BINARY [] ]} {[hKey0]} ∅ []));
    vm_compute; reflexivity.
Defined.

Lemma strip_terminator_one (u : wstring) :
  u <> [] -> zlen u <= DWORD_MAX ->
  strip_terminator (zlen u) u =
    Ok (if decide (last u = Some 0) then take (length u - 1) u else u).
Proof.
  intros Hne Hfit. destruct u as [|c s _] using rev_ind; [done |].
  rewrite zlen_snoc in Hfit. rewrite last_snoc.
  destruct (decide (c = 0)) as [->|Hc].
  - rewrite decide_True by done. rewrite strip_terminator_terminated by lia.
    rewrite length_app. cbn [length].
    replace (length s + 1 - 1)%nat with (length s) by lia.
    by rewrite take_app_length.
  - rewrite decide_False by congruence. by apply strip_terminator_unterminated.
Qed.

(** X15. A text entry (REG_SZ or REG_EXPAND_SZ) of whole units is read as
    those units with one zero unit taken off the end if the last unit is
    zero, and unchanged otherwise: never more than one terminator is
    stripped, and zero units inside the text are kept. *)
Theorem text_entry_strips_one_terminator (hKey : HKEY) (valueName : wstring) (type : Z)
    (u : wstring) (w : World) :
  type = REG_SZ \/ type = REG_EXPAND_SZ ->
  hKey ∈ open_keys w ->
  registry w !! (hKey, valueName) = Some (mkEntry type (bytes_of_wchars u)) ->
  u <> [] -> Forall is_wchar u -> 2 * zlen u <= DWORD_MAX ->
  (QueryValue hKey valueName w).1 =
    Ok (sz_value type (if decide (last u = Some 0) then take (length u - 1) u else u)).
Proof.
  intros Hty Hopen Hlook Hne Hu Hfit. pose proof (zlen_nonneg u).
  rewrite (QueryValue_dispatch _ _ _ _ Hopen Hlook).
  unfold read_dispatch. cbn [entry_type entry_data]. rewrite zlen_bytes_of_wchars.
  destruct Hty as [-> | ->].
  - cbn [Z.eqb Pos.eqb REG_SZ REG_BINARY REG_DWORD].
    rewrite (ReadValueStringInternal_units _ _ 1 u) by done.
    by rewrite strip_terminator_one by (done || lia).
  - cbn [Z.eqb Pos.eqb REG_SZ REG_EXPAND_SZ REG_BINARY REG_DWORD].
    rewrite (ReadValueExpandStringInternal_units _ _ 2 u) by done.
    by rewrite strip_terminator_one by (done || lia).
Qed.

Lemma text_entry_strips_one_terminator_witness :
  (QueryValue hKey0 [86]
     (mkWorld {[ (hKey0, [86]) := mkEntry REG_SZ (bytes_of_wchars [72; 0; 105; 0; 0]) ]}
              {[hKey0]} ∅ [])).1
  = Ok (sz_value REG_SZ [72; 0; 105; 0]).
Proof.
  apply (text_entry_strips_one_terminator hKey0 [86] REG_SZ [72; 0; 105; 0; 0]
           (mkWorld {[ (hKey0, [86]) := mkEntry REG_SZ (bytes_of_wchars [72; 0; 105; 0; 0]) ]}
                    {[hKey0]} ∅ [])).
  - left. reflexivity.
  - vm_compute. reflexivity.
  - vm_compute. reflexivity.
  - discriminate.
  - repeat constructor; unfold is_wchar; lia.
  - vm_compute. discriminate.
Defined.




(** ** The REG_MULTI_SZ reader on arbitrary bytes *)

Lemma ReadValueMultiStringInternal_bytes (hKey : HKEY) (valueName : wstring) (type : Z)
    (data : list Z) (w : World) :
  hKey ∈ open_keys w ->
  registry w !! (hKey, valueName) = Some (mkEntry type data) ->
  ReadValueMultiStringInternal hKey valueName (zlen data) w =
    (obind (multi_sz_scan
              (S (length (wchars_of_bytes (data ++ replicate (length data) 0))))
              (wchars_of_bytes (data ++ replicate (length data) 0)) 0 [])
           (fun l => Ok (multi_sz_value l)),
     logged (CallRegQueryValueEx hKey valueName true (zlen data)) w).
Proof.
  intros Hopen Hlook. unfold ReadValueMultiStringInternal. run.
  rewrite resize_nil. unfold zlen at 1. rewrite Nat2Z.id.
  erewrite RegQueryValueEx_data;
    [ | exact Hopen | exact Hlook | cbn [entry_data]; lia
      | cbn [entry_data]; unfold zlen; rewrite length_bytes_of_wchars, length_replicate; lia ].
  cbn [Win32.q_status Win32.q_buffer entry_data Z.eqb ERROR_SUCCESS negb].
  unfold poke. rewrite bytes_of_wchars_zeros, drop_replicate.
  replace (2 * length data - length data)%nat with (length data) by lia.
  destruct (multi_sz_scan _ _ _ _); done.
Qed.

Lemma wchars_of_bytes_replicate (k : nat) :
  wchars_of_bytes (replicate k 0) = replicate (Nat.div2 k) 0.
Proof.
  enough (H : wchars_of_bytes (replicate k 0) = replicate (Nat.div2 k) 0 /\
              wchars_of_bytes (replicate (S k) 0) = replicate (Nat.div2 (S k)) 0) by apply H.
  induction k as [|k [IH1 IH2]]; [done |].
  split; [exact IH2 |].
  cbn [replicate wchars_of_bytes Nat.div2]. by rewrite IH1.
Qed.

Lemma wchars_of_bytes_zero_tail (d : list Z) (k : nat) :
  forall i, (Nat.div2 (S (length d)) <= i < Nat.div2 (length d + k))%nat ->
  wchars_of_bytes (d ++ replicate k 0) !! i = Some 0.
Proof.
  enough (H : (forall i, (Nat.div2 (S (length d)) <= i < Nat.div2 (length d + k))%nat ->
                 wchars_of_bytes (d ++ replicate k 0) !! i = Some 0) /\
              (forall a i, (Nat.div2 (S (S (length d))) <= i < Nat.div2 (S (length d) + k))%nat ->
                 wchars_of_bytes ((a :: d) ++ replicate k 0) !! i = Some 0)) by apply H.
  induction d as [|x d [IH1 IH2]].
  - split.
    + intros i Hi. cbn [app length] in *. rewrite wchars_of_bytes_replicate.
      apply lookup_replicate_2. cbn in Hi. lia.
    + intros a i Hi. cbn [app length] in *.
      destruct k as [|k]; [cbn in Hi; lia |].
      cbn [replicate wchars_of_bytes]. destruct i as [|i]; [cbn in Hi; lia |].
      cbn [lookup list_lookup]. rewrite wchars_of_bytes_replicate.
      apply lookup_replicate_2. cbn [Nat.add Nat.div2] in Hi. lia.
  - split; [apply IH2 |].
    intros a i Hi. cbn [app wchars_of_bytes]. cbn [length] in Hi.
    change (Nat.div2 (S (S (S (length d))))) with (S (Nat.div2 (S (length d)))) in Hi.
    change (S (S (length d)) + k)%nat with (S (S (length d + k))) in Hi.
    change (Nat.div2 (S (S (length d + k)))) with (S (Nat.div2 (length d + k))) in Hi.
    destruct i as [|i]; [destruct Hi as [Hi _]; by apply Nat.nle_succ_0 in Hi |].
    cbn [lookup list_lookup]. apply IH1.
    destruct Hi as [Hi1 Hi2]. split; [by apply le_S_n | by apply Nat.succ_lt_mono].
Qed.

Lemma wcslen_scan_Some (l : list Z) : forall n,
  wcslen_scan l = Some n -> l !! n = Some 0 /\ nul_free (take n l).
Proof.
  induction l as [|c l IH]; intros n Hn; [done |].
  cbn [wcslen_scan] in Hn. destruct (Z.eqb_spec c 0) as [->|Hc].
  - injection Hn as <-. split; [done | constructor].
  - destruct (wcslen_scan l) as [n'|] eqn:E; [| done].
    cbn in Hn. injection Hn as <-.
    destruct (IH n' eq_refl) as [H1 H2].
    split; [done |]. cbn [take]. by constructor.
Qed.

Lemma wcslen_scan_zero_at (l : list Z) : forall m,
  l !! m = Some 0 -> exists n, wcslen_scan l = Some n /\ (n <= m)%nat.
Proof.
  induction l as [|c l IH]; intros m Hm; [done |].
  cbn [wcslen_scan]. destruct (Z.eqb_spec c 0) as [->|Hc].
  - exists 0%nat. split; [done | lia].
  - destruct m as [|m]; [cbn in Hm; congruence |].
    destruct (IH m Hm) as (n & -> & Hn). exists (S n). split; [done | lia].
Qed.

Lemma multi_sz_scan_strings_nonempty (buffer : list Z) : forall fuel pszz acc l,
  multi_sz_scan fuel buffer pszz acc = Ok l ->
  exists new, l = acc ++ new /\ Forall (fun s => s <> [] /\ nul_free s) new.
Proof.
  induction fuel as [|fuel IH]; intros pszz acc l Hl; [done |].
  cbn [multi_sz_scan] in Hl. unfold read_at in Hl.
  destruct (buffer !! pszz) as [c|] eqn:Hc; [| done]. cbn [obind] in Hl.
  destruct (Z.eqb_spec c 0) as [->|Hnz]; cbn [negb] in Hl.
  { injection Hl as <-. exists []. by rewrite app_nil_r. }
  unfold wcslen in Hl.
  destruct (wcslen_scan (drop pszz buffer)) as [len|] eqn:Hlen; [| done].
  cbn [obind] in Hl. apply IH in Hl as (new & -> & Hnew).
  exists (take len (drop pszz buffer) :: new).
  split; [by rewrite <- app_assoc |].
  constructor; [| done].
  destruct (wcslen_scan_Some _ _ Hlen) as [Hz Hfree].
  split; [| done].
  rewrite <- (take_drop_middle buffer pszz c Hc) in Hlen, Hz |- *.
  rewrite drop_app_length' in Hlen, Hz |- * by (rewrite length_take; apply lookup_lt_Some in Hc; lia).
  destruct len as [|len]; [cbn in Hz; congruence | done].
Qed.

Lemma multi_sz_scan_in_bounds (buffer : list Z) (m : nat) :
  (forall i, (m <= i < length buffer)%nat -> buffer !! i = Some 0) ->
  (m + 2 <= length buffer)%nat ->
  forall fuel pszz acc,
    (pszz <= m + 1)%nat -> (length buffer - pszz < fuel)%nat ->
    exists l, multi_sz_scan fuel buffer pszz acc = Ok l.
Proof.
  intros Hzero Hlen. induction fuel as [|fuel IH]; intros pszz acc Hp Hfuel; [lia |].
  cbn [multi_sz_scan]. unfold read_at.
  destruct (buffer !! pszz) as [c|] eqn:Hc;
    [| apply lookup_ge_None in Hc; lia].
  cbn [obind]. destruct (Z.eqb_spec c 0) as [->|Hnz]; cbn [negb]; [eauto |].
  assert (Hpm : (pszz < m)%nat).
  { destruct (decide (pszz < m)%nat); [done |].
    rewrite Hzero in Hc by lia. congruence. }
  destruct (wcslen_scan_zero_at (drop pszz buffer) (m - pszz)) as (len & Hscan & Hle).
  { rewrite lookup_drop. replace (pszz + (m - pszz))%nat with m by lia.
    apply Hzero. lia. }
  unfold wcslen. rewrite Hscan. cbn [obind].
  apply IH; lia.
Qed.

(** X17. A REG_MULTI_SZ entry of at least four bytes is read without
    leaving the buffer, whatever the bytes are and whether or not they end in
    terminators: the reader's buffer has as many units as the entry has
    bytes, so its second half is zero and stops the scan. *)
Theorem multi_sz_entry_in_bounds (hKey : HKEY) (valueName : wstring) (data : list Z)
    (w : World) :
  hKey ∈ open_keys w ->
  registry w !! (hKey, valueName) = Some (mkEntry REG_MULTI_SZ data) ->
  4 <= zlen data ->
  exists l, (QueryValue hKey valueName w).1 = Ok (multi_sz_value l).
Proof.
  intros Hopen Hlook Hsz.
  rewrite (QueryValue_dispatch _ _ _ _ Hopen Hlook).
  unfold read_dispatch.
  cbn [entry_type entry_data Z.eqb Pos.eqb REG_SZ REG_EXPAND_SZ REG_MULTI_SZ REG_BINARY
       REG_DWORD].
  rewrite (ReadValueMultiStringInternal_bytes _ _ REG_MULTI_SZ data) by done.
  cbn [fst].
  set (buffer := wchars_of_bytes (data ++ replicate (length data) 0)).
  assert (Hlen : length buffer = length data).
  { unfold buffer. rewrite length_wchars_of_bytes, length_app, length_replicate.
    replace (length data + length data)%nat with (2 * length data)%nat by lia.
    apply Nat.div2_double. }
  assert (Hhalf : (Nat.div2 (S (length data)) + 2 <= length data)%nat).
  { unfold zlen in Hsz. rewrite Nat.div2_div.
    pose proof (Nat.div_mod_eq (S (length data)) 2).
    pose proof (Nat.mod_upper_bound (S (length data)) 2). lia. }
  assert (Hzero : forall i, (Nat.div2 (S (length data)) <= i < length buffer)%nat ->
                    buffer !! i = Some 0).
  { intros i [Hi1 Hi2]. unfold buffer. apply wchars_of_bytes_zero_tail.
    replace (length data + length data)%nat with (2 * length data)%nat by lia.
    rewrite Nat.div2_double. split; [done | by rewrite <- Hlen]. }
  revert Hzero Hhalf. generalize (Nat.div2 (S (length data))). intros m Hzero Hhalf.
  destruct (multi_sz_scan_in_bounds buffer m Hzero ltac:(lia)
              (S (length buffer)) 0%nat [] ltac:(lia) ltac:(lia)) as [l Hl].
  rewrite Hl. by exists l.
Qed.

Lemma multi_sz_entry_in_bounds_witness :
  exists l,
    (QueryValue hKey0 [77]
       (mkWorld {[ (hKey0, [77]) := mkEntry REG_MULTI_SZ [65; 0; 66; 0; 67] ]}
                {[hKey0]} ∅ [])).1
    = Ok (multi_sz_value l).
Proof.
  apply (multi_sz_entry_in_bounds hKey0 [77] [65; 0; 66; 0; 67]
           (mkWorld {[ (hKey0, [77]) := mkEntry REG_MULTI_SZ [65; 0; 66; 0; 67] ]}
                    {[hKey0]} ∅ [])).
  - vm_compute. reflexivity.
  - vm_compute. reflexivity.
  - vm_compute. discriminate.
Defined.

(** X18. Whatever bytes a REG_MULTI_SZ entry holds, a list that
    [QueryValue] returns for it has no empty string and no string with a
    zero unit in it. *)
Theorem multi_sz_entry_strings (hKey : HKEY) (valueName : wstring) (data : list Z)
    (v : RegValue.t) (w : World) :
  hKey ∈ open_keys w ->
  registry w !! (hKey, valueName) = Some (mkEntry REG_MULTI_SZ data) ->
  (QueryValue hKey valueName w).1 = Ok v ->
  exists l, v = multi_sz_value l /\ Forall (fun s => s <> [] /\ nul_free s) l.
Proof.
  intros Hopen Hlook.
  rewrite (QueryValue_dispatch _ _ _ _ Hopen Hlook).
  unfold read_dispatch.
  cbn [entry_type entry_data Z.eqb Pos.eqb REG_SZ REG_EXPAND_SZ REG_MULTI_SZ REG_BINARY
       REG_DWORD].
  rewrite (ReadValueMultiStringInternal_bytes _ _ REG_MULTI_SZ data) by done.
  cbn [fst].
  destruct (multi_sz_scan _ _ _ _) as [l| | |] eqn:Hscan; cbn [obind]; try done.
  intros [= <-]. exists l. split; [done |].
  apply multi_sz_scan_strings_nonempty in Hscan as (new & -> & Hnew). done.
Qed.

Lemma multi_sz_entry_strings_witness :
  exists l, multi_sz_value [[65]; [66]] = multi_sz_value l /\
            Forall (fun s => s <> [] /\ nul_free s) l.
Proof.
  apply (multi_sz_entry_strings hKey0 [77] [65; 0; 0; 0; 66; 0]
           (multi_sz_value [[65]; [66]])
           (mkWorld {[ (hKey0, [77]) := mkEntry REG_MULTI_SZ [65; 0; 0; 0; 66; 0] ]}
                    {[hKey0]} ∅ [])).
  - vm_compute. reflexivity.
  - vm_compute. reflexivity.
  - vm_compute. reflexivity.
Defined.

(** ** Enumerating the values of a key *)

Lemma elem_of_value_names (w : World) (hKey : HKEY) (name : wstring) :
  name ∈ value_names w hKey <-> is_Some (registry w !! (hKey, name)).
Proof.
  unfold value_names. rewrite list_elem_of_omap. split.
  - intros ([[h n] e] & Hin & Hf). cbn in Hf.
    destruct (decide (h = hKey)) as [->|]; [| done]. injection Hf as ->.
    apply elem_of_map_to_list in Hin. eauto.
  - intros [e He]. exists (hKey, name, e). split.
    + by apply elem_of_map_to_list.
    + cbn. by rewrite decide_True.
Qed.

Lemma NoDup_omap_inj {A B} (f : A -> option B) (l : list A) :
  (forall x y z, x ∈ l -> y ∈ l -> f x = Some z -> f y = Some z -> x = y) ->
  NoDup l -> NoDup (omap f l).
Proof.
  intros Hinj Hnd. induction Hnd as [|x l Hx Hnd IH]; [constructor |].
  cbn [omap list_omap]. destruct (f x) as [z|] eqn:Hfx.
  - constructor.
    + rewrite list_elem_of_omap. intros (y & Hy & Hfy).
      assert (x = y) by (eapply Hinj; eauto using list_elem_of_here, list_elem_of_further).
      by subst.
    + apply IH. intros; eapply Hinj; eauto using list_elem_of_further.
  - apply IH. intros; eapply Hinj; eauto using list_elem_of_further.
Qed.

Lemma NoDup_value_names (w : World) (hKey : HKEY) : NoDup (value_names w hKey).
Proof.
  unfold value_names. apply NoDup_omap_inj; [| apply NoDup_map_to_list].
  intros [[h1 n1] e1] [[h2 n2] e2] z H1 H2 Hf1 Hf2. cbn in Hf1, Hf2.
  destruct (decide (h1 = hKey)) as [->|]; [| done].
  destruct (decide (h2 = hKey)) as [->|]; [| done].
  injection Hf1 as ->. injection Hf2 as ->.
  apply elem_of_map_to_list in H1, H2. congruence.
Qed.

Lemma zlen_le_max (names : list wstring) (name : wstring) :
  name ∈ names -> zlen name <= foldr Z.max 0 (map zlen names).
Proof.
  induction names as [|x names IH]; intros Hin; [by apply elem_of_nil in Hin |].
  cbn [map foldr]. apply elem_of_cons in Hin as [->|Hin]; [lia |].
  specialize (IH Hin). lia.
Qed.

Lemma max_lt_bound (names : list wstring) (bound : Z) :
  0 < bound -> Forall (fun name => zlen name < bound) names ->
  0 <= foldr Z.max 0 (map zlen names) < bound.
Proof.
  intros Hb. induction 1 as [|x names Hx _ IH]; cbn [map foldr]; lia.
Qed.

Lemma length_poke (mem data : list Z) :
  (length data <= length mem)%nat -> length (poke mem data) = length mem.
Proof. intros H. unfold poke. rewrite length_app, length_drop. lia. Qed.

Lemma EnumerateValueNames_loop_spec (b : Build) (hKey : HKEY) (w : World) (maxLen : Z) :
  hKey ∈ open_keys w ->
  names_fit w hKey ->
  0 <= maxLen < DWORD_MAX ->
  (forall name, name ∈ value_names w hKey -> zlen name <= maxLen) ->
  forall remaining i valueNameBuffer valueNames,
    (i + remaining = length (value_names w hKey))%nat ->
    zlen valueNameBuffer = maxLen + 1 ->
    EnumerateValueNames_loop b hKey remaining (Z.of_nat i) valueNameBuffer valueNames w =
      (Ok (valueNames ++ drop i (value_names w hKey)), w).
Proof.
  unfold names_fit, wstring. intros Hopen [Hshort Hfew] HmaxLen Hmax.
  induction remaining as [|remaining IH]; intros i buffer acc Hi Hbuf.
  - cbn [EnumerateValueNames_loop]. unfold ret.
    rewrite drop_ge by lia. by rewrite app_nil_r.
  - cbn [EnumerateValueNames_loop]. run.
    rewrite SafeSizeToDwordCast_fits by lia. cbn beta iota.
    destruct buffer as [|c0 buffer0] eqn:Hb; [rewrite zlen_nil in Hbuf; lia |].
    rewrite <- Hb in *. assert (Hfront : vector_front_addr buffer = Ok buffer) by by rewrite Hb.
    rewrite Hfront. cbn beta iota. clear Hb Hfront c0 buffer0.
    unfold Advapi32.RegEnumValue. run.
    rewrite bool_decide_eq_true_2 by done. rewrite (Nat2Z.id i).
    destruct (_ !! i) as [name|] eqn:Hname; [| apply lookup_ge_None in Hname; lia].
    assert (Hin : name ∈ value_names w hKey) by (eapply list_elem_of_lookup_2; eauto).
    pose proof (Hmax name Hin) as Hle. pose proof (zlen_nonneg name) as Hpos.
    rewrite (proj2 (Z.ltb_lt _ _)) by lia. rewrite (proj2 (Z.leb_le _ _)) by lia.
    cbn [Advapi32.e_status Advapi32.e_buffer Advapi32.e_length Z.eqb ERROR_SUCCESS negb].
    unfold wstring_from.
    assert (Hpoke : length (poke buffer (name ++ [0])) = length buffer).
    { apply length_poke. rewrite length_app. cbn [length]. unfold zlen in *. lia. }
    rewrite (proj2 (Z.leb_le _ _)) by (unfold zlen in *; rewrite Hpoke; lia).
    cbn beta iota.
    replace (take (Z.to_nat (zlen name)) (poke buffer (name ++ [0]))) with name.
    2:{ unfold poke, zlen. rewrite Nat2Z.id, <- !app_assoc. by rewrite take_app_length. }
    rewrite to_DWORD_small by (unfold zlen in *; lia).
    replace (Z.of_nat i + 1) with (Z.of_nat (S i)) by lia.
    rewrite IH by (lia || unfold zlen in *; rewrite Hpoke; lia).
    rewrite <- app_assoc. cbn [app]. by rewrite (drop_S _ _ _ Hname).
Qed.

Lemma EnumerateValueNames_spec (b : Build) (hKey : HKEY) (w : World) :
  hKey ∈ open_keys w ->
  names_fit w hKey ->
  EnumerateValueNames b hKey w = (Ok (value_names w hKey), w).
Proof.
  intros Hopen Hfit.
  pose proof Hfit as [Hshort Hfew].
  pose proof (max_lt_bound (value_names w hKey) DWORD_MAX ltac:(done) Hshort) as Hmax.
  unfold EnumerateValueNames, Advapi32.RegQueryInfoKey. run.
  rewrite bool_decide_eq_true_2 by done.
  cbn [Advapi32.i_status Advapi32.i_values Advapi32.i_maxValueNameLen Z.eqb ERROR_SUCCESS negb].
  rewrite to_DWORD_small by lia.
  unfold zlen at 1. rewrite Nat2Z.id.
  pose proof (EnumerateValueNames_loop_spec b hKey w
                (foldr Z.max 0 (map zlen (value_names w hKey))) Hopen Hfit Hmax
                (fun name Hin => zlen_le_max _ name Hin)
                (length (value_names w hKey)) 0%nat
                (resize (foldr Z.max 0 (map zlen (value_names w hKey)) + 1) []) []
                eq_refl) as Hloop.
  cbn [Z.of_nat app drop] in Hloop. apply Hloop.
  rewrite resize_nil. unfold zlen at 1. rewrite length_replicate.
  destruct Hmax as [Hmax0 _]. revert Hmax0.
  generalize (foldr Z.max 0 (map zlen (value_names w hKey))). intros; lia.
Qed.

(** X19. Under an open key, [EnumerateValueNames] returns the names of the
    values the store holds under that key, in the store's order: a name is
    in the result exactly when the key has a value of that name, and no name
    comes twice.  The call changes nothing. *)
Theorem EnumerateValueNames_complete (b : Build) (hKey : HKEY) (w : World) :
  hKey ∈ open_keys w ->
  names_fit w hKey ->
  EnumerateValueNames b hKey w = (Ok (value_names w hKey), w) /\
  NoDup (value_names w hKey) /\
  (forall name, name ∈ value_names w hKey <-> is_Some (registry w !! (hKey, name))).
Proof.
  intros Hopen Hfit.
  split; [by apply EnumerateValueNames_spec |].
  split; [apply NoDup_value_names | apply elem_of_value_names].
Qed.

Lemma EnumerateValueNames_complete_witness :
  EnumerateValueNames Build64 hKey0 world_two_values
  = (Ok (value_names world_two_values hKey0), world_two_values).
Proof.
  assert (E : value_names world_two_values hKey0 = [[87]; [86]])
    by (vm_compute; reflexivity).
  apply (EnumerateValueNames_complete Build64 hKey0 world_two_values).
  - vm_compute. reflexivity.
  - unfold names_fit. rewrite E. split.
    + repeat constructor.
    + discriminate.
Defined.




(** ** The names of the kinds *)

(** X21. [ValueTypeIdToString] gives the five supported kinds five different
    names, and gives the text for an unknown kind to exactly the kinds that
    are not supported. *)
Theorem ValueTypeIdToString_names :
  (forall typeId,
     ValueTypeIdToString typeId = L "Unsupported/Unknown registry value type"
     <-> ~ supported_kind typeId) /\
  (forall type1 type2,
     supported_kind type1 ->
     ValueTypeIdToString type1 = ValueTypeIdToString type2 -> type1 = type2).
Proof.
  assert (Hcases : forall t,
            (t = REG_BINARY /\ ValueTypeIdToString t = L "REG_BINARY") \/
            (t = REG_DWORD /\ ValueTypeIdToString t = L "REG_DWORD") \/
            (t = REG_EXPAND_SZ /\ ValueTypeIdToString t = L "REG_EXPAND_SZ") \/
            (t = REG_MULTI_SZ /\ ValueTypeIdToString t = L "REG_MULTI_SZ") \/
            (t = REG_SZ /\ ValueTypeIdToString t = L "REG_SZ") \/
            (~ supported_kind t /\
             ValueTypeIdToString t = L "Unsupported/Unknown registry value type")).
  { intros t. unfold ValueTypeIdToString, supported_kind.
    destruct (Z.eqb_spec t REG_BINARY); [tauto |].
    destruct (Z.eqb_spec t REG_DWORD); [tauto |].
    destruct (Z.eqb_spec t REG_EXPAND_SZ); [tauto |].
    destruct (Z.eqb_spec t REG_MULTI_SZ); [tauto |].
    destruct (Z.eqb_spec t REG_SZ); [tauto |].
    do 5 right. tauto. }
  split.
  - intros t. unfold supported_kind.
    destruct (Hcases t) as [[-> ->]|[[-> ->]|[[-> ->]|[[-> ->]|[[-> ->]|[Hun ->]]]]]];
      try (split; [intros H; vm_compute in H; discriminate H
                  | intros H; exfalso; apply H; tauto]).
    unfold supported_kind in Hun. tauto.
  - intros t1 t2 Hs.
    destruct (Hcases t1) as [[-> ->]|[[-> ->]|[[-> ->]|[[-> ->]|[[-> ->]|[Hun _]]]]]];
      [ .. | done ];
      destruct (Hcases t2) as [[-> ->]|[[-> ->]|[[-> ->]|[[-> ->]|[[-> ->]|[_ ->]]]]]];
      intros H; first [ reflexivity | vm_compute in H; discriminate H ].
Qed.

Lemma ValueTypeIdToString_names_witness :
  REG_MULTI_SZ = 7.
Proof.
  destruct ValueTypeIdToString_names as [_ H].
  apply (H REG_MULTI_SZ 7); [do 3 right; left; reflexivity | reflexivity].
Defined.

(** ** What QueryValue returns *)

Ltac reader_kind :=
  run;
  match goal with
  | |- context [ Win32.RegQueryValueEx ?h ?n ?lp ?cb ?w ] =>
      destruct (Win32.RegQueryValueEx h n lp cb w) as [[q| | |] w']; cbn [fst]; try done
  end;
  destruct (negb _); cbn [fst]; try done;
  repeat match goal with
         | |- context [ strip_terminator ?a ?c ] =>
             destruct (strip_terminator a c); cbn [fst]; try done
         | |- context [ multi_sz_scan ?a ?c ?d ?e ] =>
             destruct (multi_sz_scan a c d e); cbn [fst]; try done
         end;
  intros [= <-]; split; [reflexivity |];
  repeat split; cbn; intros H; done.

Lemma readers_kind (hKey : HKEY) (valueName : wstring) (valueSize : Z) (w : World)
    (v : RegValue.t) :
  ((ReadValueBinaryInternal hKey valueName valueSize w).1 = Ok v ->
     RegValue.GetType v = REG_BINARY /\ canonical v) /\
  ((ReadValueDwordInternal hKey valueName w).1 = Ok v ->
     RegValue.GetType v = REG_DWORD /\ canonical v) /\
  ((ReadValueStringInternal hKey valueName valueSize w).1 = Ok v ->
     RegValue.GetType v = REG_SZ /\ canonical v) /\
  ((ReadValueExpandStringInternal hKey valueName valueSize w).1 = Ok v ->
     RegValue.GetType v = REG_EXPAND_SZ /\ canonical v) /\
  ((ReadValueMultiStringInternal hKey valueName valueSize w).1 = Ok v ->
     RegValue.GetType v = REG_MULTI_SZ /\ canonical v).
Proof.
  split; [| split; [| split; [| split]]].
  - unfold ReadValueBinaryInternal. reader_kind.
  - unfold ReadValueDwordInternal. reader_kind.
  - unfold ReadValueStringInternal. reader_kind.
  - unfold ReadValueExpandStringInternal. reader_kind.
  - unfold ReadValueMultiStringInternal. reader_kind.
Qed.

Lemma QueryValue_kind (hKey : HKEY) (valueName : wstring) (v : RegValue.t) (w : World) :
  (QueryValue hKey valueName w).1 = Ok v ->
  (hKey ∈ open_keys w) /\
  exists e, registry w !! (hKey, valueName) = Some e /\
            supported_kind (entry_type e) /\
            RegValue.GetType v = entry_type e /\
            canonical v.
Proof.
  intros Hq.
  destruct (decide (hKey ∈ open_keys w)) as [Hopen|Hclosed].
  2:{ exfalso. revert Hq. unfold QueryValue, Win32.RegQueryValueEx. run.
      cbn [logged open_keys registry]. by rewrite bool_decide_eq_false_2 by done. }
  split; [done |].
  destruct (registry w !! (hKey, valueName)) as [e|] eqn:Hlook.
  2:{ by rewrite QueryValue_missing in Hq by done. }
  exists e. split; [done |].
  rewrite (QueryValue_dispatch _ _ _ _ Hopen Hlook) in Hq.
  unfold read_dispatch, supported_kind in *.
  destruct (readers_kind hKey valueName (zlen (entry_data e))
              (logged (CallRegQueryValueEx hKey valueName false 0) w) v)
    as (R1 & R2 & R3 & R4 & R5).
  destruct (Z.eqb_spec (entry_type e) REG_BINARY) as [E|_];
    [rewrite E; destruct (R1 Hq); tauto |].
  destruct (Z.eqb_spec (entry_type e) REG_DWORD) as [E|_];
    [rewrite E; destruct (R2 Hq); tauto |].
  destruct (Z.eqb_spec (entry_type e) REG_SZ) as [E|_];
    [rewrite E; destruct (R3 Hq); tauto |].
  destruct (Z.eqb_spec (entry_type e) REG_EXPAND_SZ) as [E|_];
    [rewrite E; destruct (R4 Hq); tauto |].
  destruct (Z.eqb_spec (entry_type e) REG_MULTI_SZ) as [E|_];
    [rewrite E; destruct (R5 Hq); tauto |].
  done.
Qed.

(** X22. When [QueryValue] returns a value, the key is open and holds an
    entry of that name, the entry's kind is one of the five supported kinds,
    and the value returned has that kind and holds something in the slot of
    that kind only. *)
Theorem QueryValue_returns_entry_kind (hKey : HKEY) (valueName : wstring) (v : RegValue.t)
    (w : World) :
  (QueryValue hKey valueName w).1 = Ok v ->
  (hKey ∈ open_keys w) /\
  exists e, registry w !! (hKey, valueName) = Some e /\
            supported_kind (entry_type e) /\
            RegValue.GetType v = entry_type e /\
            canonical v.
Proof. apply QueryValue_kind. Qed.

Lemma QueryValue_returns_entry_kind_witness :
  exists e, registry world_two_values !! (hKey0, [87]) = Some e /\
            supported_kind (entry_type e) /\
            RegValue.GetType (dword_value 100) = entry_type e /\
            canonical (dword_value 100).
Proof.
  apply (QueryValue_returns_entry_kind hKey0 [87] (dword_value 100) world_two_values).
  vm_compute. reflexivity.
Defined.

(** X23. A value that [QueryValue] returns is never empty ([IsEmpty] is
    false of it), and it can be copied: written under any name of any open
    key, when its payload is one the store can carry, it is read back from
    there unchanged. *)
Theorem read_value_can_be_copied (b : Build) (hKey hKey' : HKEY)
    (valueName valueName' : wstring) (v : RegValue.t) (w w' : World) :
  (QueryValue hKey valueName w).1 = Ok v ->
  RegValue.IsEmpty v = false /\
  (encodable v -> hKey' ∈ open_keys w' ->
   write_then_read b hKey' valueName' v w' = Ok v).
Proof.
  intros Hq. destruct (QueryValue_kind _ _ _ _ Hq) as (_ & e & _ & Hs & Ht & Hc).
  split.
  - rewrite <- Ht in Hs. unfold RegValue.GetType, RegValue.IsEmpty, supported_kind in *.
    apply Z.eqb_neq. intros E. rewrite E in Hs.
    repeat (destruct Hs as [Hs|Hs]; [discriminate Hs |]). discriminate Hs.
  - intros Hen Hopen. by apply roundtrip_canonical.
Qed.

Lemma read_value_can_be_copied_witness :
  RegValue.IsEmpty (dword_value 100) = false /\
  write_then_read Build64 hKey0 [86] (dword_value 100) world0 = Ok (dword_value 100).
Proof.
  destruct (read_value_can_be_copied Build64 hKey0 hKey0 [87] [86] (dword_value 100)
              world_two_values world0) as [H1 H2].
  - vm_compute. reflexivity.
  - split; [exact H1 |]. apply H2.
    + vm_compute. split; discriminate.
    + vm_compute. reflexivity.
Defined.

(** ** ExpandEnvironmentStrings when the environment changes between the calls *)

(** X24. [ExpandEnvironmentStrings] does not retry.  When the filling call
    reports a length above the one the sizing call reported (the expansion
    has grown in between, and the buffer was too small for it), the result
    is not the expansion: it is what the filling call left in the buffer of
    the first length, padded with zero units up to the second length less
    one. *)
Theorem ExpandEnvironmentStrings_no_retry (Env : Type)
    (native : Env -> wstring -> option (list Z) -> Z -> Env * list Z * Z)
    (source : wstring) (env : Env) :
  let sizing := native env source None 0 in
  let requiredLen := sizing.2 in
  let filling :=
    native sizing.1.1 source (Some (wstring_storage (resize requiredLen []))) requiredLen in
  0 < requiredLen ->
  zlen filling.1.2 = requiredLen + 1 ->
  requiredLen < filling.2 <= DWORD_MAX ->
  ExpandEnvironmentStrings Env native source env =
    (Ok (take (Z.to_nat requiredLen) filling.1.2
         ++ replicate (Z.to_nat (filling.2 - 1 - requiredLen)) 0),
     filling.1.1).
Proof.
  unfold ExpandEnvironmentStrings.
  destruct (native env source None 0) as [[env1 dst1] requiredLen] eqn:Hsizing.
  cbn [fst snd].
  destruct (native env1 source (Some (wstring_storage (resize requiredLen []))) requiredLen)
    as [[env2 dst] len] eqn:Hfilling.
  cbn [fst snd]. cbv zeta. intros Hreq Hdst Hlen.
  destruct (Z.eqb_spec requiredLen 0) as [?|_]; [lia |].
  destruct (Z.eqb_spec len 0) as [?|_]; [lia |].
  rewrite to_DWORD_small by lia.
  f_equal. f_equal. rewrite resize_nil, length_replicate.
  unfold resize, zlen in *. rewrite take_take, length_take.
  replace (Z.to_nat (len - 1) `min` Z.to_nat requiredLen)%nat
    with (Z.to_nat requiredLen) by lia.
  f_equal. f_equal. lia.
Qed.

Lemma ExpandEnvironmentStrings_no_retry_witness :
  ExpandEnvironmentStrings unit
    (fun env _ lpDst _ =>
       match lpDst with None => (env, [], 3) | Some dst => (env, dst, 5) end)
    [37] tt
  = (Ok [0; 0; 0; 0], tt).
Proof.
  apply (ExpandEnvironmentStrings_no_retry unit
           (fun env _ lpDst _ =>
              match lpDst with None => (env, [], 3) | Some dst => (env, dst, 5) end)
           [37] tt).
  - reflexivity.
  - reflexivity.
  - unfold DWORD_MAX. cbn. lia.
Defined.
